(** * Posts.js: loading, tag indexing, filtering and sorting of posts

    A shallow embedding of [src/Games/GetDinoFood/_data/Posts.js].

    The script keeps five state variables ([allPosts], [displayedPosts],
    [allTags], [currentSort], [currentTag]), fills them once in [fetchData]
    and recomputes [displayedPosts] in [updatePosts] on every click.

    The platform under the script (JSON.parse, DOMParser, Date, the native
    Array.prototype.sort) is an interface, [Platform]; the theorems hold for
    every platform that keeps ECMAScript's contract, and the concrete
    platform [demo] below runs the model on literal inputs.

    What the script writes to the page is the value of the render
    functions ([renderPost], [renderPosts], [renderTags]); the conversions
    to strings they make can throw, and inside [fetchData] such an
    exception ends the load like any other.

    The last part embeds the script of the game page,
    [src/unnamed/part_000]. *)

From Stdlib Require Import ZArith Lia Sorted Ascii String.
From stdpp Require Import base list sets sorting strings pretty.

Set Warnings "-register-all".
Local Open Scope string_scope.
Local Open Scope list_scope.
Local Open Scope Z_scope.

(** ** JavaScript values and exceptions *)

(** The values the script handles all come from [JSON.parse] or from the
    object literals of [parseXmlData]: null, booleans, numbers, strings,
    arrays and plain objects (own properties in insertion order).  Numbers
    are kept as integers; no operation of the script inspects one except
    [Date]. *)
Inductive jsval : Type :=
  | JNull
  | JBool (b : bool)
  | JNum (n : Z)
  | JStr (s : string)
  | JArr (items : list jsval)
  | JObj (fields : list (string * jsval)).

Inductive exn : Type :=
  | TypeError (msg : string)
  | SyntaxError (msg : string)
  | Error (msg : string).

(** A completion: a normal value or a thrown exception. *)
Inductive result (A : Type) : Type :=
  | Ok (a : A)
  | Throw (e : exn).
Arguments Ok {A} a.
Arguments Throw {A} e.

Definition bind {A B} (r : result A) (k : A → result B) : result B :=
  match r with
  | Ok a => k a
  | Throw e => Throw e
  end.

Notation "'let*' x ':=' r 'in' k" := (bind r (fun x => k))
  (at level 10, x name, r at level 100, k at level 200).

Definition is_ok {A} (r : result A) : Prop :=
  match r with Ok _ => True | Throw _ => False end.

(** [Array.prototype.filter] with a callback that may throw: left to
    right, stopping at the first exception. *)
Fixpoint filterM {A} (f : A → result bool) (l : list A) : result (list A) :=
  match l with
  | [] => Ok []
  | x :: l' =>
      let* b := f x in
      let* ys := filterM f l' in
      Ok (if b then x :: ys else ys)
  end.

(** Own-property lookup in an object's field list. *)
Fixpoint assoc (p : string) (fs : list (string * jsval)) : option jsval :=
  match fs with
  | [] => None
  | (k, v) :: fs' => if String.eqb k p then Some v else assoc p fs'
  end.

(** [v.p] for the property names the script reads ([tags], [date], [img],
    [src], ...): reading a property of null throws a TypeError; an object
    yields its own property; any other value has no such property and
    yields undefined, here [None]. *)
Definition get_prop (v : jsval) (p : string) : result (option jsval) :=
  match v with
  | JNull => Throw (TypeError "Cannot read properties of null")
  | JObj fs => Ok (assoc p fs)
  | _ => Ok None
  end.

(** SameValueZero on the values at hand.  Two arrays or objects are the
    same only when they are one object; the parsers build a fresh object
    for every array and object, and the tag the user picks is a string, so
    an array or object compares different from everything it is compared
    with. *)
Definition same_value_zero (a b : jsval) : bool :=
  match a, b with
  | JNull, JNull => true
  | JBool x, JBool y => Bool.eqb x y
  | JNum x, JNum y => Z.eqb x y
  | JStr x, JStr y => String.eqb x y
  | _, _ => false
  end.

(** [String.prototype.includes]: [needle] occurs in [hay]. *)
Fixpoint prefixb (p s : string) : bool :=
  match p, s with
  | EmptyString, _ => true
  | String a p', String b s' => Ascii.eqb a b && prefixb p' s'
  | String _ _, EmptyString => false
  end.

Fixpoint substringb (needle hay : string) : bool :=
  prefixb needle hay ||
  match hay with
  | EmptyString => false
  | String _ hay' => substringb needle hay'
  end.

(** JSON text written with ['] where JSON has the double quote. *)
Definition json_text (s : string) : string :=
  string_of_list_ascii
    (map (fun c => if Ascii.eqb c "'"%char then "034"%char else c)
         (list_ascii_of_string s)).

(** [ToBoolean]: null, false, 0 and the empty string are falsy, every
    other value is truthy; undefined ([None]) is falsy. *)
Definition truthy (v : option jsval) : bool :=
  match v with
  | None | Some JNull => false
  | Some (JBool b) => b
  | Some (JNum n) => negb (n =? 0)
  | Some (JStr s) => negb (String.eqb s "")
  | Some (JArr _) | Some (JObj _) => true
  end.

(** [Array.prototype.map] with a callback that may throw: left to right,
    stopping at the first exception. *)
Definition mapM {A B} (f : A → result B) : list A → result (list B) :=
  fix go (l : list A) : result (list B) :=
    match l with
    | [] => Ok []
    | x :: l' => let* y := f x in let* ys := go l' in Ok (y :: ys)
    end.

(** [ToString] of a value, as a template literal, a DOM string attribute
    and [new Date] apply it.  A number prints in decimal (exact for the
    integers of this model below 10^21 in size).  An array joins its items
    with commas, null items as the empty string.  An object is converted
    through its [toString] property: a plain object inherits
    [Object.prototype.toString] and gives ["[object Object]"], but an own
    property named [toString] shadows it, and a value that came out of
    [JSON.parse] is never callable, so the conversion finds no method
    ([valueOf], inherited or own, yields no primitive either) and throws a
    TypeError.  The exception of an item is the exception of the array. *)
Fixpoint toString (v : jsval) : result string :=
  match v with
  | JNull => Ok "null"
  | JBool true => Ok "true"
  | JBool false => Ok "false"
  | JNum n => Ok (pretty n)
  | JStr s => Ok s
  | JArr items =>
      let* parts :=
        mapM (fun x => match x with JNull => Ok "" | _ => toString x end)
             items in
      Ok (String.concat "," parts)
  | JObj fields =>
      match assoc "toString" fields with
      | Some _ => Throw (TypeError "Cannot convert object to primitive value")
      | None => Ok "[object Object]"
      end
  end.

(** [`${x}`] for a property value that may be undefined. *)
Definition interpolate (x : option jsval) : result string :=
  match x with
  | None => Ok "undefined"
  | Some v => toString v
  end.

(** ** Parsing JSON data (parseJsonData) *)

(** [Array.isArray(data) ? data : [data]]. *)
Definition parseJsonData (data : jsval) : list jsval :=
  match data with
  | JArr items => items
  | _ => [data]
  end.

(** ** Parsing XML data (parseXmlData) *)

(** The DOM tree [DOMParser] returns: text nodes and elements. *)
Inductive xnode : Type :=
  | XText (s : string)
  | XElem (name : string) (kids : list xnode).

(** [node.textContent]: the text of all descendants, in document order. *)
Fixpoint textContent (n : xnode) : string :=
  match n with
  | XText s => s
  | XElem _ kids => foldr (fun k acc => textContent k +:+ acc) "" kids
  end.

(** The element descendants of a node in document order, each with the
    names of its ancestors (nearest first).  [anc] names the ancestors of
    [n] itself. *)
Fixpoint descendants (anc : list string) (n : xnode)
  : list (list string * xnode) :=
  match n with
  | XText _ => []
  | XElem name kids =>
      flat_map (fun k =>
                  match k with
                  | XText _ => []
                  | XElem _ _ => (name :: anc, k) :: descendants (name :: anc) k
                  end) kids
  end.

Definition elem_name (n : xnode) : string :=
  match n with
  | XText _ => ""
  | XElem name _ => name
  end.

Definition inb (s : string) (l : list string) : bool :=
  existsb (String.eqb s) l.

(** [scope.querySelectorAll('name')]: the descendant elements of that
    name.  [scope.querySelectorAll('outer name')]: those that also have an
    ancestor named [outer]; the selector is matched against the whole
    document, so that ancestor may lie above [scope]. *)
Definition querySelectorAll (anc : list string) (scope : xnode)
    (outer : option string) (name : string) : list (list string * xnode) :=
  List.filter (fun '(a, e) =>
            String.eqb (elem_name e) name &&
            match outer with
            | None => true
            | Some o => inb o a
            end)
         (descendants anc scope).

Definition querySelector (anc : list string) (scope : xnode)
    (outer : option string) (name : string) : option (list string * xnode) :=
  head (querySelectorAll anc scope outer name).

(** [x || '']. *)
Definition or_empty (o : option string) : string :=
  match o with
  | Some s => s
  | None => ""
  end.

(** [scope.querySelector('name')?.textContent || '']. *)
Definition child_text (anc : list string) (scope : xnode) (name : string)
  : string :=
  or_empty (textContent ∘ snd <$> querySelector anc scope None name).

(** The object literal pushed for one [Post] element. *)
Definition parseXmlPost (p : list string * xnode) : jsval :=
  let '(anc, post) := p in
  let title := child_text anc post "Title" in
  let date := child_text anc post "Date" in
  let content := child_text anc post "Content" in
  let tags := (fun t => JStr (textContent (snd t)))
                <$> querySelectorAll anc post (Some "tags") "tag" in
  let img := match querySelector anc post (Some "img") "image" with
             | Some (ianc, imgElement) =>
                 JObj [("src", JStr (child_text ianc imgElement "src"));
                       ("alt", JStr (child_text ianc imgElement "alt"))]
             | None => JNull
             end in
  JObj [("title", JStr title); ("date", JStr date);
        ("content", JStr content); ("img", img); ("tags", JArr tags)].

(** A document is its root node list under the Document node, here one
    wrapper element with no name; [xmlDoc.querySelectorAll('Post')] finds
    every Post element of the document. *)
Definition document : Type := list xnode.

Definition doc_node (d : document) : xnode := XElem "#document" d.

Definition parseXmlDoc (d : document) : list jsval :=
  parseXmlPost <$> querySelectorAll [] (doc_node d) None "Post".

(** ** The platform under the script *)

(** [SortCompare]: the number a comparator returned, with NaN ([None])
    read as +0. *)
Definition sort_compare (r : option Z) : Z := default 0 r.

Section Comparator.
Variable f : jsval → jsval → option Z.

Definition cf (a b : jsval) : Z := sort_compare (f a b).

(** ECMAScript's "consistent comparator for a set of values": the
    comparator never returns NaN on them, =CF is reflexive, symmetric and
    transitive, <CF and >CF are transitive. *)
Record consistent (l : list jsval) : Prop := {
  cons_number : ∀ a b, a ∈ l → b ∈ l → is_Some (f a b);
  cons_refl : ∀ a, a ∈ l → cf a a = 0;
  cons_sym : ∀ a b, a ∈ l → b ∈ l → cf a b = 0 → cf b a = 0;
  cons_trans_eq : ∀ a b c, a ∈ l → b ∈ l → c ∈ l →
    cf a b = 0 → cf b c = 0 → cf a c = 0;
  cons_trans_lt : ∀ a b c, a ∈ l → b ∈ l → c ∈ l →
    cf a b < 0 → cf b c < 0 → cf a c < 0;
  cons_trans_gt : ∀ a b c, a ∈ l → b ∈ l → c ∈ l →
    cf a b > 0 → cf b c > 0 → cf a c > 0
}.

(** The sort order ECMAScript requires of [new] for the items [old]
    under a consistent comparator: a permutation in which no item stands
    before one it compares greater than, and in which the items of one
    =CF class keep the order they had in [old] (the sort is stable). *)
Record sort_order (old new : list jsval) : Prop := {
  so_perm : new ≡ₚ old;
  so_sorted : StronglySorted (fun a b => cf a b ≤ 0) new;
  so_stable : ∀ a, a ∈ old →
    filter (fun x => cf a x = 0) new = filter (fun x => cf a x = 0) old
}.
End Comparator.

(** What the script takes from its host.
    - [JSON_parse]: [JSON.parse], which throws a SyntaxError on text that
      is not JSON.
    - [DOM_parse]: [new DOMParser().parseFromString(text, "text/xml")],
      which never throws: for text that is not well-formed it returns a
      document holding a [parsererror] element.
    - [Date_parse]: the time value, in milliseconds, that [new Date(s)]
      and [Date.parse(s)] give a string, [None] for an invalid date (NaN);
      parsing a string never throws.
    - [toLocaleDateString]: [Date.prototype.toLocaleDateString] on a valid
      date; the text depends on the locale of the browser.
    - [array_sort]: [Array.prototype.sort] with a comparator that may
      throw.  Its contract is ECMAScript's: when the comparator returns
      normally on the items, the sort returns normally with a permutation
      of them, and when the comparator is moreover consistent the result
      is in sort order; for any other comparator the order is
      implementation-defined. *)
Record Platform : Type := {
  JSON_parse : string → result jsval;
  DOM_parse : string → document;
  Date_parse : string → option Z;
  toLocaleDateString : Z → string;
  array_sort : (jsval → jsval → result (option Z)) → list jsval
               → result (list jsval);
  array_sort_spec : ∀ cmp f l,
    (∀ a b, a ∈ l → b ∈ l → cmp a b = Ok (f a b)) →
    ∃ l', array_sort cmp l = Ok l' ∧ l' ≡ₚ l ∧
          (consistent f l → sort_order f l l')
}.

(** The time value of [new Date(v)], [None] for an invalid date (NaN);
    the argument [None] is undefined.  Undefined is NaN, null is 0, a
    boolean is 0 or 1, a number is itself within the range of a time
    value, a string is parsed.  An array or an object is first converted
    to a primitive, which for the values at hand is its [toString]: the
    string is parsed, and the TypeError of a failed conversion is thrown
    by [new Date]. *)
Definition date_value (P : Platform) (v : option jsval)
  : result (option Z) :=
  match v with
  | None => Ok None
  | Some JNull => Ok (Some 0)
  | Some (JBool b) => Ok (Some (if b then 1 else 0))
  | Some (JNum n) =>
      Ok (if Z.abs n <=? 8640000000000000 then Some n else None)
  | Some (JStr s) => Ok (Date_parse P s)
  | Some (JArr _ as o) | Some (JObj _ as o) =>
      let* s := toString o in Ok (Date_parse P s)
  end.

(** [parseXmlData(xmlString)]. *)
Definition parseXmlData (P : Platform) (xmlString : string) : list jsval :=
  parseXmlDoc (DOM_parse P xmlString).

(** ** The view engine: filter and sort (updatePosts) *)

(** [tags.includes(currentTag)] with a string argument.  An array tests
    its items with SameValueZero; a string tests for a substring; undefined
    and null have no properties; any other value has no [includes]. *)
Definition includes (tags : option jsval) (tag : string) : result bool :=
  match tags with
  | Some (JArr items) => Ok (existsb (same_value_zero (JStr tag)) items)
  | Some (JStr s) => Ok (substringb tag s)
  | None => Throw (TypeError "Cannot read properties of undefined")
  | Some JNull => Throw (TypeError "Cannot read properties of null")
  | Some _ => Throw (TypeError "post.tags.includes is not a function")
  end.

(** [post => post.tags.includes(currentTag)]. *)
Definition has_tag (currentTag : string) (post : jsval) : result bool :=
  let* tags := get_prop post "tags" in includes tags currentTag.

(** The filter step: the new array assigned to [displayedPosts]. *)
Definition filterStep (currentTag : string) (posts : list jsval)
  : result (list jsval) :=
  if String.eqb currentTag "all" then Ok posts
  else filterM (has_tag currentTag) posts.

(** [x - y] on numbers that may be NaN. *)
Definition num_sub (x y : option Z) : option Z :=
  match x, y with
  | Some a, Some b => Some (a - b)
  | _, _ => None
  end.

Section ViewEngine.
Variable P : Platform.

(** [new Date(post.date)] as a number. *)
Definition post_date (post : jsval) : result (option Z) :=
  let* d := get_prop post "date" in date_value P d.

(** [(a, b) => new Date(a.date) - new Date(b.date)]. *)
Definition cmp_asc (a b : jsval) : result (option Z) :=
  let* da := post_date a in let* db := post_date b in Ok (num_sub da db).

(** [(a, b) => new Date(b.date) - new Date(a.date)]. *)
Definition cmp_desc (a b : jsval) : result (option Z) :=
  let* db := post_date b in let* da := post_date a in Ok (num_sub db da).

(** The sort step on the array [displayedPosts] holds. *)
Definition sortStep (currentSort : string) (posts : list jsval)
  : result (list jsval) :=
  if String.eqb currentSort "date-asc" then array_sort P cmp_asc posts
  else if String.eqb currentSort "date-desc" then array_sort P cmp_desc posts
  else Ok posts.

(** The display list as a function of the corpus and the view state. *)
Definition displayList (allPosts : list jsval)
    (currentSort currentTag : string) : result (list jsval) :=
  let* filtered := filterStep currentTag allPosts in
  sortStep currentSort filtered.
End ViewEngine.

(** ** The script's state *)

(** The message box. *)
Inductive status : Type :=
  | Hidden
  | Info (msg : string)
  | ErrorMsg (msg : string).

(** Arrays are objects on a heap: [allPosts] and [displayedPosts] hold
    references, so that a sort in place through one reference is seen
    through every other reference to the same array.  [allTags] is the
    Set's contents in insertion order. *)
Abbreviation loc := nat (only parsing).

Record state : Type := mkState {
  heap : list (list jsval);
  allPosts : loc;
  displayedPosts : loc;
  allTags : list jsval;
  currentSort : string;
  currentTag : string;
  message : status
}.

(** The array a reference points to. *)
Definition deref (σ : state) (l : loc) : list jsval :=
  default [] (heap σ !! l).

(** The state variables as first initialised: two fresh empty arrays, an
    empty Set, ['date-desc'] and ['all']. *)
Definition init : state :=
  {| heap := [[]; []]; allPosts := 0%nat; displayedPosts := 1%nat;
     allTags := []; currentSort := "date-desc"; currentTag := "all";
     message := Hidden |}.

(** [allPosts = a] for a fresh array [a]. *)
Definition assign_allPosts (a : list jsval) (σ : state) : state :=
  {| heap := heap σ ++ [a]; allPosts := length (heap σ);
     displayedPosts := displayedPosts σ; allTags := allTags σ;
     currentSort := currentSort σ; currentTag := currentTag σ;
     message := message σ |}.

(** [displayedPosts = a] for a fresh array [a]. *)
Definition assign_displayedPosts (a : list jsval) (σ : state) : state :=
  {| heap := heap σ ++ [a]; allPosts := allPosts σ;
     displayedPosts := length (heap σ); allTags := allTags σ;
     currentSort := currentSort σ; currentTag := currentTag σ;
     message := message σ |}.

(** An in-place write of the array at [l]. *)
Definition store (l : loc) (a : list jsval) (σ : state) : state :=
  {| heap := <[l := a]> (heap σ); allPosts := allPosts σ;
     displayedPosts := displayedPosts σ; allTags := allTags σ;
     currentSort := currentSort σ; currentTag := currentTag σ;
     message := message σ |}.

Definition set_allTags (t : list jsval) (σ : state) : state :=
  {| heap := heap σ; allPosts := allPosts σ;
     displayedPosts := displayedPosts σ; allTags := t;
     currentSort := currentSort σ; currentTag := currentTag σ;
     message := message σ |}.

Definition set_currentSort (s : string) (σ : state) : state :=
  {| heap := heap σ; allPosts := allPosts σ;
     displayedPosts := displayedPosts σ; allTags := allTags σ;
     currentSort := s; currentTag := currentTag σ;
     message := message σ |}.

Definition set_currentTag (t : string) (σ : state) : state :=
  {| heap := heap σ; allPosts := allPosts σ;
     displayedPosts := displayedPosts σ; allTags := allTags σ;
     currentSort := currentSort σ; currentTag := t;
     message := message σ |}.

Definition set_message (m : status) (σ : state) : state :=
  {| heap := heap σ; allPosts := allPosts σ;
     displayedPosts := displayedPosts σ; allTags := allTags σ;
     currentSort := currentSort σ; currentTag := currentTag σ;
     message := m |}.

(** ** Rendering the posts (renderPost, renderPosts) *)

Definition newline : string := String (Ascii.ascii_of_nat 10) EmptyString.

Fixpoint spaces (n : nat) : string :=
  match n with
  | O => EmptyString
  | S n' => String " "%char (spaces n')
  end.

(** The image markup: empty unless [post.img && post.img.src] is truthy. *)
Definition imgHtml (post : jsval) : result string :=
  let* img := get_prop post "img" in
  match img with
  | Some i =>
      if truthy img then
        let* src := get_prop i "src" in
        if truthy src then
          let* src_text := interpolate src in
          let* alt := get_prop i "alt" in
          let* alt_text := interpolate alt in
          Ok (json_text "<img src='" +:+ src_text
              +:+ json_text "' alt='" +:+ alt_text
              +:+ json_text "' class='w-full h-48 object-cover'>")
        else Ok ""
      else Ok ""
  | None => Ok ""
  end.

(** The button of one tag. *)
Definition tagButtonHtml (tag : jsval) : result string :=
  let* data_tag := toString tag in
  let* label := toString tag in
  Ok (json_text "<button class='text-xs font-semibold px-2 py-1 bg-gray-100 text-gray-600 rounded-full hover:bg-gray-200 transition-colors tag-button' data-tag='"
      +:+ data_tag +:+ json_text "'>" +:+ label +:+ "</button>").

(** [post.tags.map(...).join('')]: only an array has a [map]. *)
Definition tagButtonsHtml (post : jsval) : result string :=
  let* tags := get_prop post "tags" in
  match tags with
  | Some (JArr items) =>
      let* buttons := mapM tagButtonHtml items in
      Ok (String.concat "" buttons)
  | None => Throw (TypeError "Cannot read properties of undefined")
  | Some JNull => Throw (TypeError "Cannot read properties of null")
  | Some _ => Throw (TypeError "post.tags.map is not a function")
  end.

(** A post card: the class name and the inner HTML of the [div]. *)
Record card : Type := {
  card_class : string;
  card_html : string
}.

(** What the post container holds: markup assigned to [innerHTML], or the
    cards appended to the emptied container. *)
Inductive container : Type :=
  | InnerHTML (html : string)
  | Children (cards : list card).

Definition no_posts_html : string :=
  json_text "<p class='col-span-full text-center text-gray-500 text-lg'>No posts found with this tag.</p>".

Section Render.
Variable P : Platform.

(** [new Date(date).toLocaleDateString()]. *)
Definition dateText (date : option jsval) : result string :=
  let* t := date_value P date in
  Ok match t with
     | Some t => toLocaleDateString P t
     | None => "Invalid Date"
     end.

(** [renderPost(post)]. *)
Definition renderPost (post : jsval) : result card :=
  let* img := imgHtml post in
  let* buttons := tagButtonsHtml post in
  let* title := get_prop post "title" in
  let* title_text := interpolate title in
  let* date := get_prop post "date" in
  let* date_text := dateText date in
  let* content := get_prop post "content" in
  let* content_text := interpolate content in
  Ok {| card_class := "post-card bg-white rounded-xl shadow-md overflow-hidden";
        card_html :=
          newline +:+ spaces 12 +:+ img
          +:+ newline +:+ spaces 12 +:+ json_text "<div class='p-6'>"
          +:+ newline +:+ spaces 16
          +:+ json_text "<h2 class='text-2xl font-bold text-gray-800 mb-2'>"
          +:+ title_text +:+ "</h2>"
          +:+ newline +:+ spaces 16
          +:+ json_text "<p class='text-gray-500 text-sm mb-4'>"
          +:+ date_text +:+ "</p>"
          +:+ newline +:+ spaces 16
          +:+ json_text "<p class='text-gray-700 mb-4'>"
          +:+ content_text +:+ "</p>"
          +:+ newline +:+ spaces 16
          +:+ json_text "<div class='flex flex-wrap gap-2'>"
          +:+ newline +:+ spaces 20 +:+ buttons
          +:+ newline +:+ spaces 16 +:+ "</div>"
          +:+ newline +:+ spaces 12 +:+ "</div>"
          +:+ newline +:+ spaces 8 |}.

(** [posts.forEach(post => postContainer.appendChild(renderPost(post)))]
    on the container with [cards] in it: the cards when the loop ends or
    throws. *)
Fixpoint appendCards (cards : list card) (posts : list jsval)
  : list card * option exn :=
  match posts with
  | [] => (cards, None)
  | post :: rest =>
      match renderPost post with
      | Ok c => appendCards (cards ++ [c]) rest
      | Throw e => (cards, Some e)
      end
  end.

(** [renderPosts(posts)]. *)
Definition renderPosts (posts : list jsval) : container * option exn :=
  if (length posts =? 0)%nat then (InnerHTML no_posts_html, None)
  else let '(cards, e) := appendCards [] posts in (Children cards, e).
End Render.

(** ** Rendering the tag bar (renderTags) *)

(** A button appended to the tag container. *)
Record tag_button : Type := {
  tb_text : string;
  tb_class : string;
  tb_tag : string
}.

(** The body of the loop of [renderTags].  [textContent] takes null as
    the empty string and converts any other value to a string;
    [dataset.tag] converts every value to a string. *)
Definition renderTag (tag : jsval) : result tag_button :=
  let* label := match tag with JNull => Ok "" | _ => toString tag end in
  let* data_tag := toString tag in
  Ok {| tb_text := label;
        tb_class := "tag-button px-4 py-2 bg-gray-200 text-gray-800 rounded-full hover:bg-gray-300 transition-colors";
        tb_tag := data_tag |}.

(** [renderTags()] on the contents of [allTags]: the buttons appended to
    the tag container after the earlier tag buttons are removed, or the
    exception of the first tag that has no string.  The page is taken to
    have the button [All] that the last line of the function looks up, as
    the comments of the function say it has; so that line does not
    throw. *)
Definition renderTags (tags : list jsval) : result (list tag_button) :=
  mapM renderTag tags.

(** A statement's outcome: the state it leaves, and the exception if it
    ended by throwing. *)
Definition outcome : Type := state * option exn.

Section Script.
Variable P : Platform.

(** [updatePosts()], up to the call of the renderer: the filter builds a
    new array and assigns it; the sort then works in place on that
    array.  An exception leaves the assignments made so far; the array of
    a sort that threw is taken as it was before the sort. *)
Definition updatePosts (σ : state) : outcome :=
  match filterStep (currentTag σ) (deref σ (allPosts σ)) with
  | Throw e => (σ, Some e)
  | Ok filtered =>
      let σ1 := assign_displayedPosts filtered σ in
      match sortStep P (currentSort σ1) (deref σ1 (displayedPosts σ1)) with
      | Throw e => (σ1, Some e)
      | Ok sorted => (store (displayedPosts σ1) sorted σ1, None)
      end
  end.

(** [allTags.add(tag)]. *)
Definition set_add (tags : list jsval) (tag : jsval) : list jsval :=
  if existsb (same_value_zero tag) tags then tags else tags ++ [tag].

(** The receiver of [post.tags.forEach(...)]: only an array has a
    [forEach]. *)
Definition tags_forEach (post : jsval) : result (list jsval) :=
  let* tags := get_prop post "tags" in
  match tags with
  | Some (JArr items) => Ok items
  | None => Throw (TypeError "Cannot read properties of undefined")
  | Some JNull => Throw (TypeError "Cannot read properties of null")
  | Some _ => Throw (TypeError "post.tags.forEach is not a function")
  end.

(** [allPosts.forEach(post => post.tags.forEach(tag => allTags.add(tag)))]:
    the Set as it stands when the loop ends or throws. *)
Fixpoint collectTags (tags : list jsval) (posts : list jsval)
  : list jsval * option exn :=
  match posts with
  | [] => (tags, None)
  | post :: rest =>
      match tags_forEach post with
      | Ok items => collectTags (foldl set_add tags items) rest
      | Throw e => (tags, Some e)
      end
  end.

(** What [fetch] and [response.text()] deliver. *)
Record response : Type := {
  ok : bool;
  http_status : Z;
  text : string
}.

(** [s.endsWith(suffix)]. *)
Fixpoint endsWith (s suffix : string) : bool :=
  String.eqb s suffix ||
  match s with
  | EmptyString => false
  | String _ s' => endsWith s' suffix
  end.

Definition exn_message (e : exn) : string :=
  match e with
  | TypeError m | SyntaxError m | Error m => m
  end.

(** The branch on the file extension: the array to assign to
    [allPosts], or the exception thrown instead. *)
Definition parseByExtension (dataFile text : string) : result (list jsval) :=
  if endsWith dataFile ".json" then
    let* jsonData := JSON_parse P text in
    Ok (parseJsonData jsonData)
  else if endsWith dataFile ".xml" then
    Ok (parseXmlData P text)
  else
    Throw (Error "Unsupported file type. Please use .json or .xml.").

(** The [try] block of [fetchData].  [renderTags()] and the
    [renderPosts(displayedPosts)] that ends [updatePosts()] run inside the
    block, so an exception of theirs ends the load as any other does; what
    they write to the page is the value of [renderTags] and [renderPosts]
    and is not part of the state. *)
Definition fetchData_try (dataFile : string) (fetched : result response)
    (σ : state) : outcome :=
  match fetched with
  | Throw e => (σ, Some e)
  | Ok r =>
      if negb (ok r) then
        (σ, Some (Error ("HTTP error! Status: " +:+ pretty (http_status r))))
      else
        match parseByExtension dataFile (text r) with
        | Throw e => (σ, Some e)
        | Ok posts =>
            let σ1 := assign_allPosts posts σ in
            match collectTags (allTags σ1) (deref σ1 (allPosts σ1)) with
            | (tags, Some e) => (set_allTags tags σ1, Some e)
            | (tags, None) =>
                let σ2 := set_message Hidden (set_allTags tags σ1) in
                match renderTags (allTags σ2) with
                | Throw e => (σ2, Some e)
                | Ok _ =>
                    match updatePosts σ2 with
                    | (σ3, Some e) => (σ3, Some e)
                    | (σ3, None) =>
                        (σ3, snd (renderPosts P (deref σ3 (displayedPosts σ3))))
                    end
                end
            end
        end
  end.

(** The message of the [catch] block. *)
Definition load_error (dataFile : string) (e : exn) : status :=
  ErrorMsg ("Error: Failed to load data. Make sure '" +:+ dataFile
            +:+ "' exists in the same directory. " +:+ exn_message e).

(** [fetchData()]: the loading message, the [try] block, and the [catch]
    that turns any exception into the error message. *)
Definition fetchData (dataFile : string) (fetched : result response)
    (σ : state) : state :=
  match fetchData_try dataFile fetched
          (set_message (Info "Loading posts...") σ) with
  | (σ', None) => σ'
  | (σ', Some e) => set_message (load_error dataFile e) σ'
  end.

(** The click listeners. *)
Definition click_sort_asc (σ : state) : outcome :=
  updatePosts (set_currentSort "date-asc" σ).

Definition click_sort_desc (σ : state) : outcome :=
  updatePosts (set_currentSort "date-desc" σ).

Definition click_tag (tag : string) (σ : state) : outcome :=
  updatePosts (set_currentTag tag σ).
End Script.

(** ** A concrete platform *)

(** *** The native sort: a stable merge sort *)

Module MergeSort.

(** Merging two runs; on a tie (and on NaN, read as +0) the item of the
    left run goes first. *)
Fixpoint merge (cmp : jsval → jsval → result (option Z))
    (l1 : list jsval) : list jsval → result (list jsval) :=
  fix merge_right (l2 : list jsval) : result (list jsval) :=
    match l1, l2 with
    | [], _ => Ok l2
    | _, [] => Ok l1
    | a :: l1', b :: l2' =>
        let* v := cmp a b in
        if sort_compare v <=? 0
        then let* m := merge cmp l1' l2 in Ok (a :: m)
        else let* m := merge_right l2' in Ok (b :: m)
    end.

(** Top-down merge sort: split in the middle, sort both halves, merge.
    [fuel] bounds the depth of the recursion. *)
Fixpoint sort_fuel (fuel : nat) (cmp : jsval → jsval → result (option Z))
    (l : list jsval) : result (list jsval) :=
  match fuel with
  | O => Ok l
  | S fuel' =>
      match l with
      | [] | [_] => Ok l
      | _ =>
          let mid := Nat.div2 (length l) in
          let* left := sort_fuel fuel' cmp (take mid l) in
          let* right := sort_fuel fuel' cmp (drop mid l) in
          merge cmp left right
      end
  end.

Definition sort (cmp : jsval → jsval → result (option Z))
    (l : list jsval) : result (list jsval) :=
  sort_fuel (length l) cmp l.

(** The merge and the sort for a comparator that returns normally. *)
Fixpoint pmerge (c : jsval → jsval → Z) (l1 : list jsval)
  : list jsval → list jsval :=
  fix pmerge_right (l2 : list jsval) : list jsval :=
    match l1, l2 with
    | [], _ => l2
    | _, [] => l1
    | a :: l1', b :: l2' =>
        if c a b <=? 0 then a :: pmerge c l1' l2
        else b :: pmerge_right l2'
    end.

Fixpoint psort (fuel : nat) (c : jsval → jsval → Z) (l : list jsval)
  : list jsval :=
  match fuel with
  | O => l
  | S fuel' =>
      match l with
      | [] | [_] => l
      | _ =>
          let mid := Nat.div2 (length l) in
          pmerge c (psort fuel' c (take mid l)) (psort fuel' c (drop mid l))
      end
  end.

End MergeSort.

(** *** Dates: the date-only ISO form *)

Module HostDate.

Definition digit (c : ascii) : option Z :=
  let n := Z.of_N (Ascii.N_of_ascii c) in
  if (48 <=? n) && (n <=? 57) then Some (n - 48) else None.

(** The value of a run of decimal digits. *)
Definition digits (cs : list ascii) : option Z :=
  foldl (fun acc c =>
           match acc, digit c with
           | Some a, Some d => Some (10 * a + d)
           | _, _ => None
           end) (Some 0) cs.

(** Days from 1970-01-01 to the civil date [y]-[m]-[d]. *)
Definition days_from_civil (y m d : Z) : Z :=
  let y' := if m <=? 2 then y - 1 else y in
  let era := y' / 400 in
  let yoe := y' - era * 400 in
  let doy := (153 * (if 2 <? m then m - 3 else m + 9) + 2) / 5 + d - 1 in
  let doe := yoe * 365 + yoe / 4 - yoe / 100 + doy in
  era * 146097 + doe - 719468.

(** [Date.parse] on [YYYY-MM-DD]: midnight UTC of that day in
    milliseconds; NaN for a month outside 1..12 or a day outside 1..31.
    A day past the end of its month rolls over into the next month, as in
    Chromium.  Every other string is NaN here: which further formats
    [Date.parse] accepts is up to the implementation. *)
Definition parse (s : string) : option Z :=
  match list_ascii_of_string s with
  | [y1; y2; y3; y4; "-"%char; m1; m2; "-"%char; d1; d2] =>
      match digits [y1; y2; y3; y4], digits [m1; m2], digits [d1; d2] with
      | Some y, Some m, Some d =>
          if (1 <=? m) && (m <=? 12) && (1 <=? d) && (d <=? 31)
          then Some (days_from_civil y m d * 86400000)
          else None
      | _, _, _ => None
      end
  | _ => None
  end.

(** The civil date of the day [z] days after 1970-01-01. *)
Definition civil_from_days (z : Z) : Z * Z * Z :=
  let z' := z + 719468 in
  let era := z' / 146097 in
  let doe := z' - era * 146097 in
  let yoe := (doe - doe / 1460 + doe / 36524 - doe / 146096) / 365 in
  let doy := doe - (365 * yoe + yoe / 4 - yoe / 100) in
  let mp := (5 * doy + 2) / 153 in
  let d := doy - (153 * mp + 2) / 5 + 1 in
  let m := if mp <? 10 then mp + 3 else mp - 9 in
  (if m <=? 2 then yoe + era * 400 + 1 else yoe + era * 400, m, d).

(** [toLocaleDateString] in the locale en-US and the time zone UTC:
    month, day and year, as in [3/1/2022]. *)
Definition toLocaleDateString (t : Z) : string :=
  let '(y, m, d) := civil_from_days (t / 86400000) in
  pretty m +:+ "/" +:+ pretty d +:+ "/" +:+ pretty y.
End HostDate.

(** *** JSON.parse on a fragment of JSON *)

(** Literals, integers, strings without escapes, arrays and objects, with
    white space between tokens; anything else is a SyntaxError. *)
Module HostJSON.

Definition is_ws (c : ascii) : bool :=
  let n := Ascii.N_of_ascii c in
  (N.eqb n 32 || N.eqb n 9 || N.eqb n 10 || N.eqb n 13)%N.

Fixpoint skip_ws (s : list ascii) : list ascii :=
  match s with
  | c :: s' => if is_ws c then skip_ws s' else s
  | [] => []
  end.

(** The leading run of digits and what follows it. *)
Fixpoint span_digits (s : list ascii) : list ascii * list ascii :=
  match s with
  | c :: s' =>
      match HostDate.digit c with
      | Some _ => let '(ds, r) := span_digits s' in (c :: ds, r)
      | None => ([], s)
      end
  | [] => ([], [])
  end.

(** The characters up to the closing quote; a control character may not
    stand in a string. *)
Fixpoint parse_string (s : list ascii) : option (string * list ascii) :=
  match s with
  | [] => None
  | c :: s' =>
      if Ascii.eqb c "034"%char then Some (EmptyString, s')
      else if Ascii.eqb c "\"%char then None
      else if (Ascii.N_of_ascii c <? 32)%N then None
      else '(str, r) ← parse_string s'; Some (String c str, r)
  end.

(** A run of digits without a leading zero. *)
Definition parse_number (neg : bool) (s : list ascii)
  : option (jsval * list ascii) :=
  match span_digits s with
  | ([], _) => None
  | ("0"%char :: _ :: _, _) => None
  | (ds, r) =>
      n ← HostDate.digits ds; Some (JNum (if neg then - n else n), r)
  end.

(** A property set on an object: a repeated key keeps its place and
    takes the later value. *)
Fixpoint obj_set (k : string) (v : jsval) (fs : list (string * jsval))
  : list (string * jsval) :=
  match fs with
  | [] => [(k, v)]
  | (k', v') :: fs' =>
      if String.eqb k' k then (k, v) :: fs' else (k', v') :: obj_set k v fs'
  end.

Section Sequences.
Variable value : list ascii → option (jsval * list ascii).

(** After an item of an array: [, item]* followed by the bracket. *)
Fixpoint elements (fuel : nat) (acc : list jsval) (s : list ascii)
  : option (jsval * list ascii) :=
  match fuel with
  | O => None
  | S fuel' =>
      match skip_ws s with
      | "]"%char :: r => Some (JArr acc, r)
      | ","%char :: r =>
          '(v, r') ← value r; elements fuel' (acc ++ [v]) r'
      | _ => None
      end
  end.

Definition member (s : list ascii)
  : option (string * jsval * list ascii) :=
  match skip_ws s with
  | "034"%char :: r =>
      '(k, r1) ← parse_string r;
      match skip_ws r1 with
      | ":"%char :: r2 => '(v, r3) ← value r2; Some (k, v, r3)
      | _ => None
      end
  | _ => None
  end.

(** After a member of an object: [, member]* followed by the brace. *)
Fixpoint members (fuel : nat) (acc : list (string * jsval))
    (s : list ascii) : option (jsval * list ascii) :=
  match fuel with
  | O => None
  | S fuel' =>
      match skip_ws s with
      | "}"%char :: r => Some (JObj acc, r)
      | ","%char :: r =>
          '(k, v, r') ← member r; members fuel' (obj_set k v acc) r'
      | _ => None
      end
  end.
End Sequences.

Fixpoint value (fuel : nat) (s : list ascii)
  : option (jsval * list ascii) :=
  match fuel with
  | O => None
  | S fuel' =>
      match skip_ws s with
      | "n"%char :: "u"%char :: "l"%char :: "l"%char :: r => Some (JNull, r)
      | "t"%char :: "r"%char :: "u"%char :: "e"%char :: r =>
          Some (JBool true, r)
      | "f"%char :: "a"%char :: "l"%char :: "s"%char :: "e"%char :: r =>
          Some (JBool false, r)
      | "034"%char :: r =>
          '(str, r') ← parse_string r; Some (JStr str, r')
      | "-"%char :: r => parse_number true r
      | "["%char :: r =>
          match skip_ws r with
          | "]"%char :: r' => Some (JArr [], r')
          | _ =>
              '(v, r') ← value fuel' r;
              elements (value fuel') (length r') [v] r'
          end
      | "{"%char :: r =>
          match skip_ws r with
          | "}"%char :: r' => Some (JObj [], r')
          | _ =>
              '(k, v, r') ← member (value fuel') r;
              members (value fuel') (length r') [(k, v)] r'
          end
      | r => parse_number false r
      end
  end.

Definition parse (text : string) : result jsval :=
  let s := list_ascii_of_string text in
  match value (length s) s with
  | Some (v, r) =>
      match skip_ws r with
      | [] => Ok v
      | _ => Throw (SyntaxError "Unexpected non-whitespace character")
      end
  | None => Throw (SyntaxError "Unexpected token")
  end.
End HostJSON.

(** *** DOMParser on a fragment of XML *)

(** Elements without attributes ([<a>...</a>], [<a/>]) and text.  Text
    that is not well-formed yields, as [parseFromString] does in Firefox,
    a document whose root is a [parsererror] element.  (Chromium keeps the
    elements it parsed before the error and puts the [parsererror] element
    among them; neither browser throws.) *)
Module HostXML.

Definition lt_char : ascii := "<"%char.
Definition gt_char : ascii := ">"%char.
Definition slash : ascii := "/"%char.

(** The characters before the first [stop] character, and the rest. *)
Fixpoint span_until (stop : ascii → bool) (s : list ascii)
  : list ascii * list ascii :=
  match s with
  | c :: s' =>
      if stop c then ([], s)
      else let '(a, r) := span_until stop s' in (c :: a, r)
  | [] => ([], [])
  end.

Definition name_end (c : ascii) : bool :=
  Ascii.eqb c gt_char || Ascii.eqb c slash || Ascii.eqb c lt_char
  || HostJSON.is_ws c.

(** [s] starts with [p]: the rest of [s]. *)
Fixpoint strip (p s : list ascii) : option (list ascii) :=
  match p, s with
  | [], _ => Some s
  | a :: p', b :: s' => if Ascii.eqb a b then strip p' s' else None
  | _ :: _, [] => None
  end.

(** The child nodes up to a closing tag or the end of the text. *)
Fixpoint nodes (fuel : nat) (s : list ascii)
  : option (list xnode * list ascii) :=
  match fuel with
  | O => None
  | S fuel' =>
      match s with
      | [] => Some ([], [])
      | c :: s1 =>
          if Ascii.eqb c lt_char then
            match s1 with
            | c2 :: _ =>
                if Ascii.eqb c2 slash then Some ([], s)
                else
                  let '(nm, r) := span_until name_end s1 in
                  match nm, r with
                  | _ :: _, g :: r1 =>
                      if Ascii.eqb g gt_char then
                        '(kids, r2) ← nodes fuel' r1;
                        r3 ← strip (lt_char :: slash :: nm ++ [gt_char]) r2;
                        '(sibs, r4) ← nodes fuel' r3;
                        Some (XElem (string_of_list_ascii nm) kids :: sibs,
                              r4)
                      else if Ascii.eqb g slash then
                        r2 ← strip [gt_char] r1;
                        '(sibs, r3) ← nodes fuel' r2;
                        Some (XElem (string_of_list_ascii nm) [] :: sibs, r3)
                      else None
                  | _, _ => None
                  end
            | [] => None
            end
          else
            let '(txt, r) := span_until (Ascii.eqb lt_char) s in
            '(sibs, r') ← nodes fuel' r;
            Some (XText (string_of_list_ascii txt) :: sibs, r')
      end
  end.

Definition is_blank (n : xnode) : bool :=
  match n with
  | XText t => forallb HostJSON.is_ws (list_ascii_of_string t)
  | XElem _ _ => false
  end.

Definition parsererror : document :=
  [XElem "parsererror" [XText "XML Parsing Error"]].

(** A well-formed document has exactly one root element, with nothing
    but white space around it. *)
Definition parse (text : string) : document :=
  let s := list_ascii_of_string text in
  match nodes (S (length s)) s with
  | Some (ns, []) =>
      match List.filter (fun n => negb (is_blank n)) ns with
      | [XElem name kids] => [XElem name kids]
      | _ => parsererror
      end
  | _ => parsererror
  end.
End HostXML.

(** ** Notions the theorems are stated with *)

(** A successful response with the given body. *)
Definition ok_response (body : string) : result response :=
  Ok {| ok := true; http_status := 200; text := body |}.

(** The title of a post, for display in examples. *)
Definition title_of (post : jsval) : string :=
  match get_prop post "title" with
  | Ok (Some (JStr t)) => t
  | _ => ""
  end.

Definition titles_of (r : result (list jsval)) : result (list string) :=
  let* posts := r in Ok (title_of <$> posts).

(** A post with a title, a date and tags, as [parseXmlData] builds it. *)
Definition mkPost (title date : string) (tags : list string) : jsval :=
  JObj [("title", JStr title); ("date", JStr date); ("content", JStr "");
        ("img", JNull); ("tags", JArr (JStr <$> tags))].

(** Every reference of the state points into the heap. *)
Definition wf (σ : state) : Prop :=
  (allPosts σ < length (heap σ))%nat
  ∧ (displayedPosts σ < length (heap σ))%nat.

(** A JSON value that is neither an array nor an object. *)
Definition is_scalar (v : jsval) : bool :=
  match v with
  | JNull | JBool _ | JNum _ | JStr _ => true
  | JArr _ | JObj _ => false
  end.

(** The exception of [post.tags.forEach] on a scalar post. *)
Definition scalar_exn (v : jsval) : exn :=
  match v with
  | JNull => TypeError "Cannot read properties of null"
  | _ => TypeError "Cannot read properties of undefined"
  end.

(** The filter as the specification words it: a post is kept when its
    tags sequence contains the active tag, compared as an exact string. *)
Definition carries_tag (tag : string) (post : jsval) : bool :=
  match get_prop post "tags" with
  | Ok (Some (JArr items)) =>
      existsb (fun v => match v with
                        | JStr s => String.eqb s tag
                        | _ => false
                        end) items
  | _ => false
  end.

Definition spec_filter (activeTag : string) (corpus : list jsval)
  : list jsval :=
  if String.eqb activeTag "all" then corpus
  else List.filter (carries_tag activeTag) corpus.

(** A post as the data model has it, as far as the script looks: an
    object whose [tags] is an array.  These are the posts on which the tag
    loop of the load does not throw. *)
Definition post_shaped (post : jsval) : Prop := is_ok (tags_forEach post).

(** The date of a post as a number; NaN for an invalid date. *)
Definition date_of (P : Platform) (post : jsval) : option Z :=
  match post_date P post with
  | Ok d => d
  | Throw _ => None
  end.

Definition f_asc (P : Platform) (a b : jsval) : option Z :=
  num_sub (date_of P a) (date_of P b).

Definition f_desc (P : Platform) (a b : jsval) : option Z :=
  num_sub (date_of P b) (date_of P a).

(** The time value of a post's date, 0 when the date is invalid. *)
Definition time_of (P : Platform) (post : jsval) : Z :=
  default 0 (date_of P post).

Definition valid_date (P : Platform) (post : jsval) : Prop :=
  is_Some (date_of P post).

(** A value that has a string: [ToString] of it does not throw. *)
Definition stringable (v : jsval) : Prop := is_ok (toString v).

(** The same for a property value that may be undefined. *)
Definition opt_stringable (o : option jsval) : Prop := is_ok (interpolate o).

(** A post whose [date] property [new Date] can read: absent, a
    primitive, or an array or object that has a string. *)
Definition date_readable (post : jsval) : Prop :=
  match get_prop post "date" with
  | Ok d => opt_stringable d
  | Throw _ => True
  end.

(** The image of a post can be written out: when [post.img] and
    [post.img.src] are truthy, [src] and [alt] have strings. *)
Definition img_writable (post : jsval) : Prop :=
  match get_prop post "img" with
  | Ok (Some i) =>
      match get_prop i "src", get_prop i "alt" with
      | Ok src, Ok alt =>
          truthy (Some i) = true → truthy src = true →
          opt_stringable src ∧ opt_stringable alt
      | _, _ => True
      end
  | _ => True
  end.

(** A post [renderPost] can write out: an object with an array [tags]
    whose items have strings, whose [title], [date] and [content] have
    strings where present, and whose image can be written out. *)
Definition renderable (post : jsval) : Prop :=
  post_shaped post
  ∧ match tags_forEach post with
    | Ok items => Forall stringable items
    | Throw _ => True
    end
  ∧ match get_prop post "title", get_prop post "content" with
    | Ok title, Ok content => opt_stringable title ∧ opt_stringable content
    | _, _ => True
    end
  ∧ date_readable post
  ∧ img_writable post.

(** The strings among the tags, in Set order. *)
Definition tag_strings (tags : list jsval) : list string :=
  omap (fun v => match v with JStr s => Some s | _ => None end) tags.

(** ** Example inputs *)

(** Scenario A: two posts, the later one first in the document. *)
Definition scenarioA_xml : string :=
  "<Posts><Post><Title>A</Title><Date>2024-01-01</Date><tags><tag>x</tag></tags></Post><Post><Title>B</Title><Date>2023-06-01</Date><tags><tag>y</tag></tags></Post></Posts>".

Definition three_posts_json : string :=
  json_text "[{'title':'c','date':'2022-03-01','tags':['x']},
              {'title':'a','date':'2024-01-01','tags':[]},
              {'title':'b','date':'2023-06-01','tags':['x','y']}]".

(** Scenario C: text with an unterminated tag; and a well-formed
    document without posts. *)
Definition unterminated_xml : string := "<Posts><Post><Title>A</Title>".
Definition no_posts_xml : string := "<Posts></Posts>".

(** A corpus with one post tagged ["all"] and one post without tags. *)
Definition all_tagged_corpus : list jsval :=
  [mkPost "tagged" "2024-01-01" ["all"]; mkPost "plain" "2023-01-01" []].

(** A Post element with nothing but a date, and one with an image that
    has no [alt]. *)
Definition sparse_xml : string :=
  "<Posts><Post><Date>2024-01-01</Date></Post><Post><Title>T</Title><img><image><src>u.png</src></image></img></Post></Posts>".

Definition dated_corpus : list jsval :=
  [mkPost "first" "2023-06-01" ["x"]; mkPost "late" "2024-01-01" ["x"];
   mkPost "other" "2020-01-01" ["y"]; mkPost "second" "2023-06-01" ["x"]].

(** ** Click sequences *)

(** The clicks the script listens to. *)
Inductive event : Type :=
  | SortAsc
  | SortDesc
  | TagClick (tag : string).

Definition handle (P : Platform) (ev : event) (σ : state) : outcome :=
  match ev with
  | SortAsc => click_sort_asc P σ
  | SortDesc => click_sort_desc P σ
  | TagClick tag => click_tag P tag σ
  end.

(** A run of clicks.  An exception thrown in a listener is reported by the
    browser and ends that listener only; the next click finds the state the
    listener left. *)
Definition run (P : Platform) (evs : list event) (σ : state) : state :=
  foldl (fun s ev => fst (handle P ev s)) σ evs.

(** The view state after a run of clicks: the last sort order and the last
    tag clicked. *)
Definition view_after (evs : list event) (view : string * string)
  : string * string :=
  foldl (fun '(srt, tag) ev =>
           match ev with
           | SortAsc => ("date-asc", tag)
           | SortDesc => ("date-desc", tag)
           | TagClick t => (srt, t)
           end) view evs.

(** ** The stream of tags *)

(** The items of [post.tags] as the tag loop visits them. *)
Definition post_tag_items (post : jsval) : list jsval :=
  match tags_forEach post with
  | Ok items => items
  | Throw _ => []
  end.

(** All tags of a corpus in the order the tag loop meets them. *)
Definition tag_stream (posts : list jsval) : list jsval :=
  flat_map post_tag_items posts.

Definition is_string (v : jsval) : Prop :=
  match v with JStr _ => True | _ => False end.

(** [allTags.add] on strings. *)
Definition add_string (acc : list string) (s : string) : list string :=
  if decide (s ∈ acc) then acc else acc ++ [s].

(** A list of strings without its repeats, every string at the place of
    its first occurrence ([remove_dups] keeps the last of equal items). *)
Definition first_occurrences (l : list string) : list string :=
  reverse (remove_dups (reverse l)).

(** The comparator of a sort order, as a function to numbers. *)
Definition f_of (P : Platform) (currentSort : string)
  : jsval → jsval → option Z :=
  if String.eqb currentSort "date-asc" then f_asc P else f_desc P.

(** ** Class lists, the message box and the tag buttons *)

(** [classList.add(...tokens)]: each token not yet in the list is appended;
    [classList.remove(...tokens)]: each token is taken out. *)
Definition class_add (cl tokens : list string) : list string :=
  foldl (fun acc t => if inb t acc then acc else acc ++ [t]) cl tokens.

Definition class_remove (cl tokens : list string) : list string :=
  List.filter (fun c => negb (inb c tokens)) cl.

(** The message box: the class list of [messageBox] and the text of
    [messageText]. *)
Record box : Type := {
  box_classes : list string;
  box_text : string
}.

(** [showMessage(message, type)]. *)
Definition showMessage (message type : string) (b : box) : box :=
  let cl := class_remove (box_classes b)
              ["hidden"; "bg-yellow-100"; "bg-red-100"] in
  {| box_text := message;
     box_classes :=
       if String.eqb type "error"
       then class_add cl ["bg-red-100"; "border-red-500"; "text-red-700"]
       else class_add cl ["bg-yellow-100"; "border-yellow-500";
                          "text-yellow-700"] |}.

(** [hideMessage()]. *)
Definition hideMessage (b : box) : box :=
  {| box_text := box_text b;
     box_classes := class_add (box_classes b) ["hidden"] |}.

(** A tag button: its [data-tag] and its class list. *)
Record button : Type := {
  data_tag : string;
  btn_classes : list string
}.

Definition active_classes : list string :=
  ["bg-blue-500"; "text-white"; "hover:bg-blue-600"].

Definition inactive_classes : list string :=
  ["bg-gray-200"; "text-gray-800"; "hover:bg-gray-300"].

(** The styling loop of the tag listener over the elements
    [document.querySelectorAll('.tag-button')] returns. *)
Definition unstyle (b : button) : button :=
  {| data_tag := data_tag b;
     btn_classes := class_add (class_remove (btn_classes b) active_classes)
                      inactive_classes |}.

(** The two lines that style [target]. *)
Definition style_target (b : button) : button :=
  {| data_tag := data_tag b;
     btn_classes := class_remove (class_add (btn_classes b) active_classes)
                      inactive_classes |}.

(** The styling a click on the button at index [target] does to the tag
    buttons of the document. *)
Definition restyle (buttons : list button) (target : nat) : list button :=
  alter style_target target (unstyle <$> buttons).

(** ** The game page script (src/unnamed/part_000) *)

(** What the script writes to the console. *)
Inductive game_log : Type :=
  | InvalidUrl
  | ItchUnavailable
  | CouldNotFetch (e : exn).

(** The page as the script changes it: the value last assigned to
    [gameFrame.src] ([None]: the frame as the document has it), the markup
    the script last wrote into the body of the frame's document ([None]:
    it wrote none), the URLs opened in new tabs, the console, and the data
    the click listeners closed over once they are registered.  What the
    frame loads after an assignment to [src] is the browser's business and
    not part of the page state. *)
Record game_page : Type := {
  frame_src : option jsval;
  frame_body : option string;
  opened : list jsval;
  console : list game_log;
  listeners : option jsval
}.

Definition fresh_page : game_page :=
  {| frame_src := None; frame_body := None; opened := []; console := [];
     listeners := None |}.

(** [setIframeSrc(url)]. *)
Definition setIframeSrc (url : option jsval) (pg : game_page) : game_page :=
  if truthy url then
    {| frame_src := url; frame_body := frame_body pg; opened := opened pg;
       console := console pg; listeners := listeners pg |}
  else
    {| frame_src := frame_src pg; frame_body := frame_body pg;
       opened := opened pg;
       console := console pg ++ [InvalidUrl]; listeners := listeners pg |}.

(** [gameData[key].url]. *)
Definition entry_url (gameData : jsval) (key : string)
  : result (option jsval) :=
  let* entry := get_prop gameData key in
  match entry with
  | None => Throw (TypeError "Cannot read properties of undefined")
  | Some e => get_prop e "url"
  end.

(** The three buttons. *)
Inductive game_click : Type :=
  | StableBtn
  | DevBtn
  | ItchBtn.

(** A click: nothing happens before the listeners are registered; an
    exception in a listener leaves the page as it is. *)
Definition game_handle (c : game_click) (pg : game_page)
  : game_page * option exn :=
  match listeners pg with
  | None => (pg, None)
  | Some gameData =>
      match c with
      | StableBtn =>
          match entry_url gameData "Stable" with
          | Ok url => (setIframeSrc url pg, None)
          | Throw e => (pg, Some e)
          end
      | DevBtn =>
          match entry_url gameData "Snapshot" with
          | Ok url => (setIframeSrc url pg, None)
          | Throw e => (pg, Some e)
          end
      | ItchBtn =>
          match entry_url gameData "Itch-Stable" with
          | Ok url =>
              if truthy url then
                ({| frame_src := frame_src pg; frame_body := frame_body pg;
                    opened := opened pg ++ option_list url;
                    console := console pg; listeners := listeners pg |}, None)
              else
                ({| frame_src := frame_src pg; frame_body := frame_body pg;
                    opened := opened pg;
                    console := console pg ++ [ItchUnavailable];
                    listeners := listeners pg |}, None)
          | Throw e => (pg, Some e)
          end
      end
  end.

Definition game_run (cs : list game_click) (pg : game_page) : game_page :=
  foldl (fun p c => fst (game_handle c p)) pg cs.

(** What [fetch] and [response.json()] deliver. *)
Record game_response : Type := {
  g_ok : bool;
  g_status : Z;
  g_json : result jsval
}.

(** The markup of the [catch] block. *)
Definition error_page : string :=
  "<h1>Error loading game data.</h1><p>Please check the console for more details.</p>".

(** The [catch] block: the console line, then the error markup written
    into the body of the frame's document.  The frame is the element with
    the id [gameFrame], and its document is taken to be one the script may
    reach (a frame of the same origin). *)
Definition game_catch (e : exn) (pg : game_page) : game_page :=
  {| frame_src := frame_src pg; frame_body := Some error_page;
     opened := opened pg;
     console := console pg ++ [CouldNotFetch e]; listeners := listeners pg |}.

(** The [DOMContentLoaded] listener: fetch, parse, register the click
    listeners, show the stable version.  The page is taken to have the
    three buttons and the frame the script looks up by id. *)
Definition game_load (fetched : result game_response) (pg : game_page)
  : game_page :=
  match fetched with
  | Throw e => game_catch e pg
  | Ok r =>
      if negb (g_ok r) then
        game_catch (Error ("HTTP error! status: " +:+ pretty (g_status r))) pg
      else
        match g_json r with
        | Throw e => game_catch e pg
        | Ok gameData =>
            let pg1 := {| frame_src := frame_src pg;
                          frame_body := frame_body pg; opened := opened pg;
                          console := console pg;
                          listeners := Some gameData |} in
            match entry_url gameData "Stable" with
            | Ok url => setIframeSrc url pg1
            | Throw e => game_catch e pg1
            end
        end
  end.

(** What holds of the page after the load and any clicks, for the data
    [d] the listeners closed over. *)
Definition game_inv (d : jsval) (pg0 pg : game_page) : Prop :=
  (listeners pg = None ∨ listeners pg = Some d)
  ∧ (frame_src pg = frame_src pg0
     ∨ ∃ key url, (key = "Stable" ∨ key = "Snapshot")
         ∧ entry_url d key = Ok (Some url)
         ∧ truthy (Some url) = true
         ∧ frame_src pg = Some url)
  ∧ (∀ u, u ∈ opened pg →
       u ∈ opened pg0
       ∨ (entry_url d "Itch-Stable" = Ok (Some u) ∧ truthy (Some u) = true)).

(** A data file with an empty Snapshot URL. *)
Definition versions_json : jsval :=
  JObj [("Stable", JObj [("url", JStr "play/1.0/index.html")]);
        ("Snapshot", JObj [("url", JStr "")]);
        ("Itch-Stable", JObj [("url", JStr "https://example.itch.io/game")])].

(** [updatePosts()] with its last line, [renderPosts(displayedPosts)]:
    the state, the post container and the exception, if any.  When the
    filter or the sort throws the container is not touched. *)
Definition updatePosts_rendered (P : Platform)
    (σ : state) (c : container) : state * container * option exn :=
  match updatePosts P σ with
  | (σ', Some e) => (σ', c, Some e)
  | (σ', None) =>
      let '(c', e) := renderPosts P (deref σ' (displayedPosts σ')) in
      (σ', c', e)
  end.

(** ** Facts about the merge sort *)

Module MergeSortFacts.
Import MergeSort.

Lemma pmerge_perm c l1 l2 : pmerge c l1 l2 ≡ₚ l1 ++ l2.
Proof.
  revert l2. induction l1 as [|a l1 IH]; intros l2.
  - destruct l2; reflexivity.
  - induction l2 as [|b l2 IH2].
    + simpl. by rewrite app_nil_r.
    + simpl. destruct (c a b <=? 0).
      * by rewrite IH.
      * simpl in IH2. rewrite IH2.
        by rewrite (Permutation_middle (a :: l1) l2 b).
Qed.

Lemma psort_perm fuel c l : psort fuel c l ≡ₚ l.
Proof.
  revert l. induction fuel as [|n IH]; intros l; [done|].
  destruct l as [|x [|y l]]; [done..|].
  cbn [psort]. rewrite pmerge_perm, !IH. by rewrite take_drop.
Qed.

Section Pure.
Variables (cmp : jsval → jsval → result (option Z))
          (f : jsval → jsval → option Z) (S : list jsval).
Hypothesis cmp_pure : ∀ a b, a ∈ S → b ∈ S → cmp a b = Ok (f a b).

Lemma merge_pure l1 l2 :
  l1 ⊆ S → l2 ⊆ S → merge cmp l1 l2 = Ok (pmerge (cf f) l1 l2).
Proof.
  revert l2. induction l1 as [|a l1 IH]; intros l2 H1 H2.
  - by destruct l2.
  - induction l2 as [|b l2 IH2]; [done|].
    simpl. rewrite cmp_pure by set_solver. simpl. unfold cf.
    destruct (sort_compare (f a b) <=? 0).
    + rewrite IH by set_solver. done.
    + simpl in IH2. rewrite IH2 by set_solver. done.
Qed.

Lemma sort_fuel_pure fuel l :
  l ⊆ S → sort_fuel fuel cmp l = Ok (psort fuel (cf f) l).
Proof.
  revert l. induction fuel as [|n IH]; intros l Hl; [done|].
  destruct l as [|x [|y l]]; [done..|].
  cbn [sort_fuel psort].
  assert (H1 : take (Nat.div2 (length (x :: y :: l))) (x :: y :: l) ⊆ S).
  { etrans; [apply subseteq_take|done]. }
  assert (H2 : drop (Nat.div2 (length (x :: y :: l))) (x :: y :: l) ⊆ S).
  { etrans; [apply subseteq_drop|done]. }
  rewrite (IH _ H1), (IH _ H2). simpl.
  apply merge_pure.
  - intros z Hz. apply H1. by rewrite <- (psort_perm n (cf f)).
  - intros z Hz. apply H2. by rewrite <- (psort_perm n (cf f)).
Qed.
End Pure.

Section Ordered.
Variables (f : jsval → jsval → option Z) (S : list jsval).
Hypothesis HC : consistent f S.

Local Abbreviation c := (cf f).

Lemma cf_lt_gt a b : a ∈ S → b ∈ S → c a b < 0 → c b a > 0.
Proof.
  intros Ha Hb Hab.
  pose proof (cons_refl f S HC a Ha).
  pose proof (cons_sym f S HC b a Hb Ha).
  pose proof (cons_trans_lt f S HC a b a Ha Hb Ha Hab).
  lia.
Qed.

Lemma cf_gt_lt a b : a ∈ S → b ∈ S → c a b > 0 → c b a < 0.
Proof.
  intros Ha Hb Hab.
  pose proof (cons_refl f S HC a Ha).
  pose proof (cons_sym f S HC b a Hb Ha).
  pose proof (cons_trans_gt f S HC a b a Ha Hb Ha Hab).
  lia.
Qed.

Lemma cf_lt_eq a b x :
  a ∈ S → b ∈ S → x ∈ S → c a b < 0 → c b x = 0 → c a x < 0.
Proof.
  intros Ha Hb Hx Hab Hbx.
  destruct (Z.lt_trichotomy (c a x) 0) as [?|[Heq|Hgt]]; [done|..].
  - pose proof (cons_sym f S HC b x Hb Hx Hbx).
    pose proof (cons_trans_eq f S HC a x b Ha Hx Hb Heq). lia.
  - pose proof (cf_gt_lt a x Ha Hx ltac:(lia)).
    pose proof (cons_trans_lt f S HC x a b Hx Ha Hb).
    pose proof (cons_sym f S HC b x Hb Hx Hbx). lia.
Qed.

Lemma cf_eq_lt a b x :
  a ∈ S → b ∈ S → x ∈ S → c a b = 0 → c b x < 0 → c a x < 0.
Proof.
  intros Ha Hb Hx Hab Hbx.
  destruct (Z.lt_trichotomy (c a x) 0) as [?|[Heq|Hgt]]; [done|..].
  - pose proof (cons_sym f S HC a b Ha Hb Hab).
    pose proof (cons_trans_eq f S HC b a x Hb Ha Hx). lia.
  - pose proof (cf_gt_lt a x Ha Hx ltac:(lia)).
    pose proof (cons_trans_lt f S HC b x a Hb Hx Ha Hbx).
    pose proof (cons_sym f S HC a b Ha Hb Hab). lia.
Qed.

Lemma cf_le_trans a b x :
  a ∈ S → b ∈ S → x ∈ S → c a b ≤ 0 → c b x ≤ 0 → c a x ≤ 0.
Proof.
  intros Ha Hb Hx Hab Hbx.
  destruct (Z.eq_dec (c a b) 0) as [E1|N1];
    destruct (Z.eq_dec (c b x) 0) as [E2|N2].
  - pose proof (cons_trans_eq f S HC a b x Ha Hb Hx E1 E2). lia.
  - pose proof (cf_eq_lt a b x Ha Hb Hx E1). lia.
  - pose proof (cf_lt_eq a b x Ha Hb Hx). lia.
  - pose proof (cons_trans_lt f S HC a b x Ha Hb Hx). lia.
Qed.

Lemma cf_lt_le a b x :
  a ∈ S → b ∈ S → x ∈ S → c a b < 0 → c b x ≤ 0 → c a x < 0.
Proof.
  intros Ha Hb Hx Hab Hbx.
  destruct (Z.eq_dec (c b x) 0) as [E|N].
  - by apply (cf_lt_eq a b x).
  - apply (cons_trans_lt f S HC a b x); [done..|lia].
Qed.

Local Abbreviation le := (fun a b => c a b ≤ 0).

Lemma pmerge_sorted l1 l2 :
  l1 ⊆ S → l2 ⊆ S → StronglySorted le l1 → StronglySorted le l2 →
  StronglySorted le (pmerge c l1 l2).
Proof.
  revert l2. induction l1 as [|a l1 IH]; intros l2 H1 H2 S1 S2.
  - by destruct l2.
  - induction l2 as [|b l2 IH2]; [done|].
    apply StronglySorted_inv in S1 as [S1 F1].
    apply StronglySorted_inv in S2 as [S2 F2].
    assert (Ha : a ∈ S) by set_solver.
    assert (Hb : b ∈ S) by set_solver.
    simpl. destruct (Z.leb_spec (c a b) 0) as [Hle|Hgt].
    + constructor; [apply IH; [set_solver|done|done|by constructor]|].
      rewrite pmerge_perm. apply Forall_app; split; [done|].
      constructor; [done|].
      apply Forall_forall. intros x Hx.
      rewrite Forall_forall in F2.
      apply (cf_le_trans a b x); [done|done|set_solver|done|by apply F2].
    + assert (Hba : c b a < 0) by (apply cf_gt_lt; [done|done|lia]).
      constructor.
      * apply IH2; [set_solver|done].
      * change (Forall (le b) (pmerge c (a :: l1) l2)).
        rewrite pmerge_perm. apply Forall_app; split; [|done].
        constructor; [lia|].
        apply Forall_forall. intros x Hx.
        rewrite Forall_forall in F1.
        apply (cf_le_trans b a x); [done|done|set_solver|lia|by apply F1].
Qed.

Lemma psort_sorted fuel l :
  l ⊆ S → (length l ≤ fuel)%nat → StronglySorted le (psort fuel c l).
Proof.
  revert l. induction fuel as [|n IH]; intros l Hl Hlen.
  - destruct l; [constructor|simpl in Hlen; lia].
  - destruct l as [|x [|y l]].
    + constructor.
    + repeat constructor.
    + cbn [psort].
      set (mid := Nat.div2 (length (x :: y :: l))).
      assert (Hmid : (0 < mid ∧ mid < length (x :: y :: l))%nat).
      { subst mid. simpl. pose proof (Nat.div2_odd (length l)) as E.
        destruct (Nat.odd (length l)); simpl in E; lia. }
      assert (H1 : take mid (x :: y :: l) ⊆ S)
        by (etrans; [apply subseteq_take|done]).
      assert (H2 : drop mid (x :: y :: l) ⊆ S)
        by (etrans; [apply subseteq_drop|done]).
      apply pmerge_sorted.
      * intros z Hz. apply H1. by rewrite <- (psort_perm n c).
      * intros z Hz. apply H2. by rewrite <- (psort_perm n c).
      * apply IH; [done|]. rewrite length_take. lia.
      * apply IH; [done|]. rewrite length_drop. lia.
Qed.

Lemma filter_none (Q : jsval → Prop) `{∀ x, Decision (Q x)} l :
  Forall (fun x => ¬ Q x) l → filter Q l = [].
Proof.
  induction 1 as [|x l Hx _ IH]; [done|].
  by rewrite filter_cons_False.
Qed.

(** Merging keeps the items of one =CF class in the order left run,
    then right run. *)
Lemma pmerge_stable e l1 l2 :
  e ∈ S → l1 ⊆ S → l2 ⊆ S → StronglySorted le l1 →
  filter (fun x => c e x = 0) (pmerge c l1 l2)
  = filter (fun x => c e x = 0) l1 ++ filter (fun x => c e x = 0) l2.
Proof.
  intros He. revert l2. induction l1 as [|a l1 IH]; intros l2 H1 H2 S1.
  - by destruct l2.
  - induction l2 as [|b l2 IH2].
    { simpl. by rewrite app_nil_r. }
    assert (Ha : a ∈ S) by set_solver.
    assert (Hb : b ∈ S) by set_solver.
    simpl. destruct (Z.leb_spec (c a b) 0) as [Hle|Hgt].
    + apply StronglySorted_inv in S1 as [S1 F1].
      rewrite !filter_cons, IH; [|set_solver|done|done].
      rewrite (filter_cons _ b l2). by case_decide.
    + change (filter (fun x => c e x = 0) (b :: pmerge c (a :: l1) l2)
              = filter (fun x => c e x = 0) (a :: l1)
                ++ filter (fun x => c e x = 0) (b :: l2)).
      rewrite (filter_cons _ b), (filter_cons _ b l2).
      rewrite IH2 by set_solver.
      case_decide as Heb; [|done].
      rewrite (filter_none _ (a :: l1)); [done|].
      assert (Hba : c b a < 0) by (apply cf_gt_lt; [done|done|lia]).
      assert (Fa : Forall (le a) (a :: l1)).
      { apply StronglySorted_inv in S1 as [_ F1].
        constructor; [|done].
        pose proof (cons_refl f S HC a Ha). lia. }
      apply Forall_forall. intros x Hx Hex.
      rewrite Forall_forall in Fa.
      assert (HxS : x ∈ S) by (by apply H1).
      pose proof (cf_lt_le b a x Hb Ha HxS Hba (Fa x Hx)).
      pose proof (cons_sym f S HC e b He Hb Heb).
      pose proof (cons_trans_eq f S HC b e x Hb He HxS). lia.
Qed.

Lemma psort_stable e fuel l :
  e ∈ S → l ⊆ S → (length l ≤ fuel)%nat →
  filter (fun x => c e x = 0) (psort fuel c l)
  = filter (fun x => c e x = 0) l.
Proof.
  intros He. revert l. induction fuel as [|n IH]; intros l Hl Hlen; [done|].
  destruct l as [|x [|y l]]; [done..|].
  cbn [psort].
  set (mid := Nat.div2 (length (x :: y :: l))).
  assert (Hmid : (0 < mid ∧ mid < length (x :: y :: l))%nat).
  { subst mid. simpl. pose proof (Nat.div2_odd (length l)) as E.
    destruct (Nat.odd (length l)); simpl in E; lia. }
  assert (H1 : take mid (x :: y :: l) ⊆ S)
    by (etrans; [apply subseteq_take|done]).
  assert (H2 : drop mid (x :: y :: l) ⊆ S)
    by (etrans; [apply subseteq_drop|done]).
  rewrite pmerge_stable.
  - rewrite !IH; [|done|rewrite length_drop; lia|done
                  |rewrite length_take; lia].
    by rewrite <- filter_app, take_drop.
  - done.
  - intros z Hz. apply H1. by rewrite <- (psort_perm n c).
  - intros z Hz. apply H2. by rewrite <- (psort_perm n c).
  - apply psort_sorted; [done|]. rewrite length_take. lia.
Qed.
End Ordered.

(** The merge sort keeps the contract of [Array.prototype.sort]. *)
Lemma sort_spec cmp f l :
  (∀ a b, a ∈ l → b ∈ l → cmp a b = Ok (f a b)) →
  ∃ l', sort cmp l = Ok l' ∧ l' ≡ₚ l ∧ (consistent f l → sort_order f l l').
Proof.
  intros Hpure. exists (psort (length l) (cf f) l). split; [|split].
  - by apply (sort_fuel_pure cmp f l).
  - apply psort_perm.
  - intros HC. constructor.
    + apply psort_perm.
    + by apply (psort_sorted f l).
    + intros a Ha. by apply (psort_stable f l).
Qed.
End MergeSortFacts.

(** *** The platform *)

Definition demo : Platform := {|
  JSON_parse := HostJSON.parse;
  DOM_parse := HostXML.parse;
  Date_parse := HostDate.parse;
  toLocaleDateString := HostDate.toLocaleDateString;
  array_sort := MergeSort.sort;
  array_sort_spec := MergeSortFacts.sort_spec
|}.

(** The state after loading the scenario-A document. *)
Definition scenarioA : state :=
  fetchData demo "posts.xml" (ok_response scenarioA_xml) init.

(** ** References and frames *)

Lemma wf_init : wf init.
Proof. unfold wf; simpl; lia. Qed.

Lemma deref_fresh (h : list (list jsval)) a :
  default [] ((h ++ [a]) !! length h) = a.
Proof. by rewrite list_lookup_middle. Qed.

(** What [updatePosts] computes, and what it leaves alone: it assigns
    [displayedPosts] a fresh array holding the display list, and changes
    nothing else; when it throws, [displayedPosts] still refers to an array
    the heap already had or to the unsorted filter result. *)
Lemma updatePosts_spec P σ :
  wf σ →
  let corpus := deref σ (allPosts σ) in
  let '(σ', e) := updatePosts P σ in
  wf σ'
  ∧ allPosts σ' = allPosts σ
  ∧ (∀ l, (l < length (heap σ))%nat → deref σ' l = deref σ l)
  ∧ allTags σ' = allTags σ
  ∧ currentSort σ' = currentSort σ
  ∧ currentTag σ' = currentTag σ
  ∧ message σ' = message σ
  ∧ match displayList P corpus (currentSort σ) (currentTag σ) with
    | Ok dl => e = None ∧ deref σ' (displayedPosts σ') = dl
    | Throw x => e = Some x
    end.
Proof.
  intros [W1 W2]. unfold updatePosts, displayList.
  destruct (filterStep (currentTag σ) (deref σ (allPosts σ))) as [fl|x] eqn:EF;
    simpl.
  - unfold deref at 1. simpl. rewrite deref_fresh.
    destruct (sortStep P (currentSort σ) fl) as [sl|x] eqn:ES.
    + unfold wf, deref; simpl. rewrite length_insert, length_app; simpl.
      repeat split; try lia; try done.
      * intros l Hl. rewrite list_lookup_insert_ne by lia.
        by rewrite lookup_app_l.
      * rewrite list_lookup_insert_eq; [done|]. rewrite length_app; simpl; lia.
    + unfold wf, deref; simpl. rewrite length_app; simpl.
      repeat split; try lia; try done.
      intros l Hl. by rewrite lookup_app_l.
  - repeat split; done.
Qed.

(** What a load does once the text has been parsed into [posts]: it
    assigns them to [allPosts], collects the tags until the loop ends or
    throws, and on the normal path hides the message and computes the
    display list. *)
Lemma fetchData_parsed P dataFile r σ posts :
  wf σ → ok r = true →
  parseByExtension P dataFile (text r) = Ok posts →
  let σ' := fetchData P dataFile (Ok r) σ in
  let '(tags, e) := collectTags (allTags σ) posts in
  wf σ'
  ∧ deref σ' (allPosts σ') = posts
  ∧ allTags σ' = tags
  ∧ currentSort σ' = currentSort σ
  ∧ currentTag σ' = currentTag σ
  ∧ match e with
    | Some x =>
        message σ' = load_error dataFile x
        ∧ deref σ' (displayedPosts σ') = deref σ (displayedPosts σ)
    | None =>
        match renderTags tags with
        | Throw x =>
            message σ' = load_error dataFile x
            ∧ deref σ' (displayedPosts σ') = deref σ (displayedPosts σ)
        | Ok _ =>
            match displayList P posts (currentSort σ) (currentTag σ) with
            | Ok dl =>
                deref σ' (displayedPosts σ') = dl
                ∧ message σ' = match snd (renderPosts P dl) with
                               | None => Hidden
                               | Some x => load_error dataFile x
                               end
            | Throw x => message σ' = load_error dataFile x
            end
        end
    end.
Proof.
  intros [W1 W2] Hok Hparse. unfold fetchData, fetchData_try.
  rewrite Hok. simpl negb. cbv iota. rewrite Hparse. cbv zeta.
  set (σ0 := assign_allPosts posts _).
  assert (H0 : deref σ0 (allPosts σ0) = posts) by apply deref_fresh.
  assert (L0 : length (heap σ0) = Datatypes.S (length (heap σ))).
  { unfold σ0; simpl. rewrite length_app; simpl; lia. }
  rewrite H0. change (allTags σ0) with (allTags σ).
  destruct (collectTags (allTags σ) posts) as [tags [x|]].
  - repeat split; try done.
    + unfold wf. simpl. rewrite length_app; simpl. lia.
    + unfold wf. simpl. rewrite length_app; simpl. lia.
    + unfold deref. simpl. by rewrite lookup_app_l.
  - set (σ1 := set_message Hidden (set_allTags tags σ0)).
    assert (W : wf σ1).
    { unfold wf. change (heap σ1) with (heap σ0). rewrite L0. simpl. lia. }
    change (allTags σ1) with tags.
    destruct (renderTags tags) as [bs|x].
    2:{ repeat split; try done.
        - unfold wf. simpl. rewrite length_app; simpl. lia.
        - unfold wf. simpl. rewrite length_app; simpl. lia.
        - unfold deref. simpl. by rewrite lookup_app_l. }
    pose proof (updatePosts_spec P σ1 W) as H.
    destruct (updatePosts P σ1) as [σ2 e2].
    destruct H as (W2' & A & F & T & S & C & M & D).
    change (deref σ1 (allPosts σ1)) with (deref σ0 (allPosts σ0)) in D.
    rewrite H0 in D. change (currentSort σ1) with (currentSort σ) in D.
    change (currentTag σ1) with (currentTag σ) in D.
    assert (HA : deref σ2 (allPosts σ2) = posts).
    { rewrite A, F; [done|]. change (heap σ1) with (heap σ0).
      rewrite L0. simpl. lia. }
    destruct (displayList P posts (currentSort σ) (currentTag σ)) as [dl|x].
    + destruct D as [-> D]. rewrite D.
      destruct (snd (renderPosts P dl)) as [x|];
        repeat split; try done; apply W2'.
    + subst e2. repeat split; try done; apply W2'.
Qed.

(** ** The view engine leaves the corpus alone *)

(** C8. Recomputing the view is deterministic and has no effect on the
    corpus: after [updatePosts] the reference [allPosts] and the array it
    points to (hence every post in it) are what they were, although the
    sort works in place, because it works on the fresh array the filter
    step made; and a second [updatePosts] right after the first ends the
    same way and leaves a display list equal to the first one, which is
    [displayList] of the corpus and the view state. *)
Theorem updatePosts_keeps_corpus (P : Platform) (σ : state) :
  wf σ →
  let '(σ1, e1) := updatePosts P σ in
  let '(σ2, e2) := updatePosts P σ1 in
  allPosts σ1 = allPosts σ
  ∧ deref σ1 (allPosts σ1) = deref σ (allPosts σ)
  ∧ e2 = e1
  ∧ (e1 = None →
     Ok (deref σ1 (displayedPosts σ1))
       = displayList P (deref σ (allPosts σ)) (currentSort σ) (currentTag σ)
     ∧ deref σ2 (displayedPosts σ2) = deref σ1 (displayedPosts σ1)).
Proof.
  intros W. pose proof (updatePosts_spec P σ W) as H1.
  destruct (updatePosts P σ) as [σ1 e1].
  destruct H1 as (W1 & A1 & F1 & _ & S1 & T1 & _ & D1).
  pose proof (updatePosts_spec P σ1 W1) as H2.
  destruct (updatePosts P σ1) as [σ2 e2].
  destruct H2 as (_ & _ & _ & _ & _ & _ & _ & D2).
  assert (C1 : deref σ1 (allPosts σ1) = deref σ (allPosts σ)).
  { rewrite A1. apply F1, W. }
  rewrite C1, S1, T1 in D2.
  destruct (displayList P (deref σ (allPosts σ)) (currentSort σ)
              (currentTag σ)) as [dl|x].
  - destruct D1 as [-> D1], D2 as [-> D2].
    repeat split; try done; congruence.
  - subst. repeat split; try done; intros; discriminate.
Qed.

Lemma updatePosts_keeps_corpus_witness :
  wf scenarioA ∧
  let '(σ1, e1) := updatePosts demo scenarioA in
  let '(σ2, e2) := updatePosts demo σ1 in
  allPosts σ1 = allPosts scenarioA
  ∧ deref σ1 (allPosts σ1) = deref scenarioA (allPosts scenarioA)
  ∧ e2 = e1
  ∧ (e1 = None →
     Ok (deref σ1 (displayedPosts σ1))
       = displayList demo (deref scenarioA (allPosts scenarioA))
           (currentSort scenarioA) (currentTag scenarioA)
     ∧ deref σ2 (displayedPosts σ2) = deref σ1 (displayedPosts σ1)).
Proof.
  assert (W : wf scenarioA) by (unfold wf; vm_compute; lia).
  split; [exact W|]. exact (updatePosts_keeps_corpus demo scenarioA W).
Defined.

(** ** Loading JSON *)

(** C9. A load from a [.json] file whose text parses to an array of N
    values leaves exactly those N values in [allPosts], in the order of
    the document; one whose text parses to a single object leaves that
    object alone in a one-element array. *)
Theorem json_corpus_source_order (P : Platform) (dataFile : string)
    (r : response) (σ : state) :
  wf σ → ok r = true → endsWith dataFile ".json" = true →
  let σ' := fetchData P dataFile (Ok r) σ in
  (∀ items, JSON_parse P (text r) = Ok (JArr items) →
     deref σ' (allPosts σ') = items
     ∧ length (deref σ' (allPosts σ')) = length items
     ∧ ∀ i, deref σ' (allPosts σ') !! i = items !! i)
  ∧ (∀ fields, JSON_parse P (text r) = Ok (JObj fields) →
     deref σ' (allPosts σ') = [JObj fields]).
Proof.
  intros W Hok Hext σ'. subst σ'. split.
  - intros items HJ.
    assert (HP : parseByExtension P dataFile (text r) = Ok items).
    { unfold parseByExtension. by rewrite Hext, HJ. }
    pose proof (fetchData_parsed P dataFile r σ items W Hok HP) as H.
    destruct (collectTags (allTags σ) items) as [tags e].
    destruct H as (_ & -> & _). done.
  - intros fields HJ.
    assert (HP : parseByExtension P dataFile (text r) = Ok [JObj fields]).
    { unfold parseByExtension. by rewrite Hext, HJ. }
    pose proof (fetchData_parsed P dataFile r σ _ W Hok HP) as H.
    destruct (collectTags (allTags σ) [JObj fields]) as [tags e].
    by destruct H as (_ & -> & _).
Qed.

Lemma json_corpus_source_order_witness :
  let r := {| ok := true; http_status := 200; text := three_posts_json |} in
  let σ' := fetchData demo "posts.json" (Ok r) init in
  (wf init ∧ ok r = true ∧ endsWith "posts.json" ".json" = true)
  ∧ (title_of <$> deref σ' (allPosts σ')) = ["c"; "a"; "b"].
Proof.
  intros r σ'. split; [split; [apply wf_init|split; reflexivity]|].
  destruct (json_corpus_source_order demo "posts.json" r init wf_init
              eq_refl eq_refl) as [Harr _].
  destruct (Harr _ eq_refl) as [-> _]. reflexivity.
Defined.

(** C3, as the code has it. A load from a [.json] file whose text parses
    to a scalar (null, a boolean, a number or a string) does end with the
    error message, raised when the tag loop reads [tags] of the scalar;
    but by then [parseJsonData] has wrapped the scalar and [allPosts] holds
    it as a one-element array.  The tag set and the displayed array stay
    as they were. *)
Theorem json_scalar_is_wrapped (P : Platform) (dataFile : string)
    (r : response) (σ : state) (v : jsval) :
  wf σ → ok r = true → endsWith dataFile ".json" = true →
  JSON_parse P (text r) = Ok v → is_scalar v = true →
  let σ' := fetchData P dataFile (Ok r) σ in
  message σ' = load_error dataFile (scalar_exn v)
  ∧ deref σ' (allPosts σ') = [v]
  ∧ allTags σ' = allTags σ
  ∧ deref σ' (displayedPosts σ') = deref σ (displayedPosts σ).
Proof.
  intros W Hok Hext HJ Hs σ'. subst σ'.
  assert (HP : parseByExtension P dataFile (text r) = Ok [v]).
  { unfold parseByExtension. rewrite Hext, HJ. by destruct v. }
  pose proof (fetchData_parsed P dataFile r σ _ W Hok HP) as H.
  assert (HT : collectTags (allTags σ) [v] = (allTags σ, Some (scalar_exn v))).
  { by destruct v. }
  rewrite HT in H. destruct H as (_ & -> & -> & _ & _ & -> & ->). done.
Qed.

Lemma json_scalar_is_wrapped_witness :
  let r := {| ok := true; http_status := 200; text := "42" |} in
  let σ' := fetchData demo "posts.json" (Ok r) init in
  JSON_parse demo (text r) = Ok (JNum 42)
  ∧ message σ' = load_error "posts.json" (scalar_exn (JNum 42))
  ∧ deref σ' (allPosts σ') = [JNum 42]
  ∧ allTags σ' = []
  ∧ deref σ' (displayedPosts σ') = [].
Proof.
  intros r σ'. split; [reflexivity|].
  exact (json_scalar_is_wrapped demo "posts.json" r init (JNum 42) wf_init
           eq_refl eq_refl eq_refl eq_refl).
Defined.

(** C3 as stated fails: the text [42] parses to a bare number, and the
    load leaves a one-element corpus, not an empty one. *)
Lemma json_scalar_corpus_not_empty :
  let σ' := fetchData demo "posts.json" (ok_response "42") init in
  JSON_parse demo "42" = Ok (JNum 42)
  ∧ deref σ' (allPosts σ') = [JNum 42]
  ∧ deref σ' (allPosts σ') ≠ [].
Proof. vm_compute. repeat split; discriminate. Qed.

(** ** Loading XML *)

Lemma endsWith_xml_not_json s :
  endsWith s ".xml" = true → endsWith s ".json" = false.
Proof.
  induction s as [|c s IH]; [done|].
  cbn [endsWith]. intros [Hx|Hx]%orb_true_iff.
  - apply String.eqb_eq in Hx. injection Hx as -> ->. reflexivity.
  - rewrite (IH Hx), orb_false_r.
    apply String.eqb_neq. intros E. injection E as -> ->. discriminate.
Qed.

(** ** The filter step *)

Lemma post_shaped_inv post :
  post_shaped post →
  ∃ fields items, post = JObj fields ∧ assoc "tags" fields = Some (JArr items).
Proof.
  unfold post_shaped, tags_forEach.
  destruct post as [| | | | |fields]; simpl; try done.
  destruct (assoc "tags" fields) as [[| | | |items|]|] eqn:E; simpl; try done.
  eauto.
Qed.

Lemma has_tag_carries tag post :
  post_shaped post → has_tag tag post = Ok (carries_tag tag post).
Proof.
  intros (fields & items & -> & E)%post_shaped_inv.
  unfold has_tag, carries_tag. simpl. rewrite E. simpl. f_equal.
  clear E. induction items as [|v items IH]; [done|].
  simpl. rewrite IH. f_equal.
  destruct v; simpl; try done. apply String.eqb_sym.
Qed.

Lemma filterM_has_tag tag corpus :
  Forall post_shaped corpus →
  filterM (has_tag tag) corpus = Ok (List.filter (carries_tag tag) corpus).
Proof.
  induction 1 as [|post corpus Hp _ IH]; [done|].
  simpl. rewrite (has_tag_carries _ _ Hp), IH. simpl.
  by destruct (carries_tag tag post).
Qed.

Lemma filterStep_refines tag corpus :
  Forall post_shaped corpus →
  filterStep tag corpus = Ok (spec_filter tag corpus).
Proof.
  intros H. unfold filterStep, spec_filter.
  destruct (String.eqb tag "all"); [done|]. by apply filterM_has_tag.
Qed.

(** C6. On a corpus of posts, the filter step with the active tag ["all"]
    returns the corpus as it is; with any other tag it returns normally
    the posts whose tags contain that very string, in corpus order: a tag
    carried by K posts gives K posts, each carrying it, and a tag carried
    by none gives the empty list. *)
Theorem filterStep_correct (corpus : list jsval) (activeTag : string) :
  Forall post_shaped corpus →
  filterStep "all" corpus = Ok corpus
  ∧ (activeTag ≠ "all" →
     ∃ dl, filterStep activeTag corpus = Ok dl
           ∧ dl = List.filter (carries_tag activeTag) corpus
           ∧ sublist dl corpus
           ∧ (∀ post, post ∈ dl ↔ post ∈ corpus ∧ carries_tag activeTag post = true)
           ∧ length dl = length (List.filter (carries_tag activeTag) corpus)
           ∧ (Forall (fun post => carries_tag activeTag post = false) corpus
              → dl = [])).
Proof.
  intros H. split; [done|]. intros Hne.
  exists (List.filter (carries_tag activeTag) corpus).
  assert (E : String.eqb activeTag "all" = false) by by apply String.eqb_neq.
  split; [|split; [done|split; [|split; [|split; [done|]]]]].
  - unfold filterStep. rewrite E. by apply filterM_has_tag.
  - clear. induction corpus as [|p l IH]; simpl; [constructor|].
    destruct (carries_tag activeTag p); by constructor.
  - intros post. rewrite !list_elem_of_In, filter_In. tauto.
  - clear. induction 1 as [|p l Hp _ IH]; [done|]. simpl. by rewrite Hp.
Qed.

Lemma filterStep_correct_witness :
  let corpus := [mkPost "a" "2024-01-01" ["news"; "x"];
                 mkPost "b" "2023-01-01" ["News"];
                 mkPost "c" "2022-01-01" ["x"; "news"]] in
  Forall post_shaped corpus
  ∧ filterStep "news" corpus
    = Ok [mkPost "a" "2024-01-01" ["news"; "x"];
          mkPost "c" "2022-01-01" ["x"; "news"]]
  ∧ filterStep "sport" corpus = Ok [].
Proof.
  intros corpus.
  assert (H : Forall post_shaped corpus) by (repeat constructor).
  split; [exact H|]. split.
  - destruct (filterStep_correct corpus "news" H) as [_ Hf].
    destruct Hf as (dl & -> & -> & _); [discriminate|reflexivity].
  - destruct (filterStep_correct corpus "sport" H) as [_ Hf].
    destruct Hf as (dl & -> & -> & _); [discriminate|reflexivity].
Defined.

Lemma carries_tag_mkPost tag title date tags :
  carries_tag tag (mkPost title date tags)
  = existsb (fun s => String.eqb s tag) tags.
Proof.
  unfold carries_tag.
  change (get_prop (mkPost title date tags) "tags")
    with (Ok (Some (JArr (JStr <$> tags)))).
  induction tags as [|s tags IH]; [done|].
  cbn [fmap list_fmap existsb]. f_equal. apply IH.
Qed.

(** Two filters of one list give the same list exactly when their tests
    agree on its items. *)
Lemma filter_eq_iff {A} (p q : A → bool) (l : list A) :
  List.filter p l = List.filter q l ↔ ∀ x, x ∈ l → p x = q x.
Proof.
  induction l as [|a l IH]; simpl.
  - split; [|done]. intros _ x Hx. by apply elem_of_nil in Hx.
  - split.
    + intros E x Hx. apply elem_of_cons in Hx.
      destruct (p a) eqn:Ep, (q a) eqn:Eq.
      * injection E as E. destruct Hx as [->|Hx]; [congruence|].
        by apply IH.
      * assert (Hin : In a (List.filter q l)) by (rewrite <- E; by left).
        apply filter_In in Hin as [_ Hin]. congruence.
      * assert (Hin : In a (List.filter p l)) by (rewrite E; by left).
        apply filter_In in Hin as [_ Hin]. congruence.
      * destruct Hx as [->|Hx]; [congruence|]. by apply IH.
    + intros H. rewrite (H a) by by left.
      assert (E : List.filter p l = List.filter q l).
      { apply IH. intros x Hx. apply H. by right. }
      by rewrite E.
Qed.

Lemma filter_all_iff {A} (p : A → bool) (l : list A) :
  l = List.filter p l ↔ Forall (fun x => p x = true) l.
Proof.
  rewrite Forall_forall.
  assert (E : l = List.filter (fun _ => true) l).
  { induction l as [|a l IH]; simpl; congruence. }
  rewrite E at 1. rewrite filter_eq_iff. split; intros H x Hx.
  - symmetry. by apply H.
  - symmetry. by apply H.
Qed.

(** C10, as the code has it. The reserved value ["all"] is tested before
    tag membership: with the active tag ["all"] the filter step passes
    every post of every corpus through, tagged ["all"] or not.  On a
    corpus of posts, the filter step returns exactly the posts carrying
    the tag ["all"] only in two cases: the active tag is ["all"] and every
    post carries the tag ["all"]; or the active tag is another tag that
    the very same posts carry.  So when some post does not carry ["all"]
    and some post carries ["all"] and no other tag, no active tag selects
    the posts carrying ["all"]. *)
Theorem all_is_reserved :
  (∀ corpus, filterStep "all" corpus = Ok corpus)
  ∧ ∀ corpus, Forall post_shaped corpus →
      (∀ activeTag,
         filterStep activeTag corpus
           = Ok (List.filter (carries_tag "all") corpus)
         ↔ (activeTag = "all"
            ∧ Forall (fun post => carries_tag "all" post = true) corpus)
           ∨ (activeTag ≠ "all"
              ∧ ∀ post, post ∈ corpus →
                  carries_tag activeTag post = carries_tag "all" post))
      ∧ (Exists (fun post => carries_tag "all" post = false) corpus →
         Exists (fun post => carries_tag "all" post = true
                   ∧ ∀ t, t ≠ "all" → carries_tag t post = false) corpus →
         ∀ activeTag,
           filterStep activeTag corpus
           ≠ Ok (List.filter (carries_tag "all") corpus)).
Proof.
  split; [done|]. intros corpus Hs.
  assert (Hiff : ∀ activeTag,
    filterStep activeTag corpus = Ok (List.filter (carries_tag "all") corpus)
    ↔ (activeTag = "all"
       ∧ Forall (fun post => carries_tag "all" post = true) corpus)
      ∨ (activeTag ≠ "all"
         ∧ ∀ post, post ∈ corpus →
             carries_tag activeTag post = carries_tag "all" post)).
  { intros activeTag. rewrite (filterStep_refines _ _ Hs). unfold spec_filter.
    destruct (String.eqb activeTag "all") eqn:E.
    - apply String.eqb_eq in E as ->. rewrite <- filter_all_iff. split.
      + intros [= H]. by left.
      + intros [[_ H]|[H _]]; [by f_equal|done].
    - apply String.eqb_neq in E. rewrite <- filter_eq_iff. split.
      + intros [= H]. by right.
      + intros [[H _]|[_ H]]; [done|by f_equal]. }
  split; [exact Hiff|].
  intros Hno Hyes activeTag Heq. apply Hiff in Heq.
  apply Exists_exists in Hno as (q & Hq & Eq).
  apply Exists_exists in Hyes as (y & Hy & Ey & Hy').
  destruct Heq as [[_ Hall]|[Hne Hagree]].
  - rewrite Forall_forall in Hall. specialize (Hall q Hq). congruence.
  - specialize (Hagree y Hy). rewrite (Hy' _ Hne) in Hagree. congruence.
Qed.

Lemma all_is_reserved_witness :
  Forall post_shaped all_tagged_corpus
  ∧ Exists (fun post => carries_tag "all" post = false) all_tagged_corpus
  ∧ Exists (fun post => carries_tag "all" post = true
              ∧ ∀ t, t ≠ "all" → carries_tag t post = false) all_tagged_corpus
  ∧ filterStep "all" all_tagged_corpus = Ok all_tagged_corpus
  ∧ ∀ activeTag,
      filterStep activeTag all_tagged_corpus
      ≠ Ok (List.filter (carries_tag "all") all_tagged_corpus).
Proof.
  assert (Hs : Forall post_shaped all_tagged_corpus) by (by repeat constructor).
  assert (Hno : Exists (fun post => carries_tag "all" post = false)
                  all_tagged_corpus).
  { right. by left. }
  assert (Hyes : Exists (fun post => carries_tag "all" post = true
                   ∧ ∀ t, t ≠ "all" → carries_tag t post = false)
                   all_tagged_corpus).
  { left. split; [done|]. intros t Ht. rewrite carries_tag_mkPost.
    cbn [existsb]. rewrite orb_false_r. apply String.eqb_neq. congruence. }
  split; [exact Hs|]. split; [exact Hno|]. split; [exact Hyes|].
  destruct all_is_reserved as [Hall Hrest]. split; [apply Hall|].
  destruct (Hrest all_tagged_corpus Hs) as [_ H]. exact (H Hno Hyes).
Defined.

(** C10 as stated fails: an active tag can select exactly the posts
    carrying the tag ["all"].  On a corpus whose only post is tagged
    ["all"] the active tag ["all"] does; on a corpus where the post tagged
    ["all"] is also the only one tagged ["x"], the active tag ["x"]
    does. *)
Lemma all_tag_can_be_selected :
  let one := [mkPost "t" "2024-01-01" ["all"]] in
  let two := [mkPost "t" "2024-01-01" ["all"; "x"];
              mkPost "u" "2024-01-02" []] in
  Exists (fun post => carries_tag "all" post = true) one
  ∧ filterStep "all" one = Ok (List.filter (carries_tag "all") one)
  ∧ Exists (fun post => carries_tag "all" post = true) two
  ∧ List.filter (carries_tag "all") two = [mkPost "t" "2024-01-01" ["all"; "x"]]
  ∧ filterStep "x" two = Ok (List.filter (carries_tag "all") two).
Proof. vm_compute. repeat split; by left. Qed.

(** ** The view engine returns on corpora of posts *)

Lemma date_value_ok P d : opt_stringable d → is_ok (date_value P d).
Proof.
  unfold opt_stringable, interpolate, date_value.
  destruct d as [[| | | |items|fields]|]; try done.
  - by destruct (toString (JArr items)).
  - by destruct (toString (JObj fields)).
Qed.

Lemma post_date_ok P post :
  is_ok (post_date P post) → post_date P post = Ok (date_of P post).
Proof. unfold date_of. by destruct (post_date P post). Qed.

Lemma post_date_readable P post :
  post_shaped post → date_readable post → is_ok (post_date P post).
Proof.
  intros (fields & items & -> & _)%post_shaped_inv. unfold date_readable.
  simpl. apply date_value_ok.
Qed.

Lemma post_date_valid P post :
  valid_date P post → is_ok (post_date P post).
Proof.
  unfold valid_date, date_of. destruct (post_date P post); [done|].
  by intros [? ?].
Qed.

Lemma cmp_asc_ok P a b :
  is_ok (post_date P a) → is_ok (post_date P b) →
  cmp_asc P a b = Ok (f_asc P a b).
Proof.
  intros Ha Hb. unfold cmp_asc, f_asc.
  by rewrite (post_date_ok P a Ha), (post_date_ok P b Hb).
Qed.

Lemma cmp_desc_ok P a b :
  is_ok (post_date P a) → is_ok (post_date P b) →
  cmp_desc P a b = Ok (f_desc P a b).
Proof.
  intros Ha Hb. unfold cmp_desc, f_desc.
  by rewrite (post_date_ok P a Ha), (post_date_ok P b Hb).
Qed.

Lemma spec_filter_Forall (Q : jsval → Prop) tag corpus :
  Forall Q corpus → Forall Q (spec_filter tag corpus).
Proof.
  intros H. unfold spec_filter. destruct (String.eqb tag "all"); [done|].
  rewrite Forall_forall in *. intros p Hp. apply H.
  apply list_elem_of_In in Hp. apply filter_In in Hp as [Hp _].
  by apply list_elem_of_In.
Qed.

(** The sort step returns a permutation when the dates of the posts can
    be read. *)
Lemma sortStep_dated P currentSort posts :
  Forall (fun post => is_ok (post_date P post)) posts →
  ∃ dl, sortStep P currentSort posts = Ok dl ∧ dl ≡ₚ posts.
Proof.
  intros H. rewrite Forall_forall in H. unfold sortStep.
  destruct (String.eqb currentSort "date-asc").
  - destruct (array_sort_spec P (cmp_asc P) (f_asc P) posts)
      as (dl & E & Hp & _); [|by eauto].
    intros a b Ha Hb. apply cmp_asc_ok; by apply H.
  - destruct (String.eqb currentSort "date-desc"); [|by eauto].
    destruct (array_sort_spec P (cmp_desc P) (f_desc P) posts)
      as (dl & E & Hp & _); [|by eauto].
    intros a b Ha Hb. apply cmp_desc_ok; by apply H.
Qed.

Lemma sortStep_shaped P currentSort posts :
  Forall post_shaped posts → Forall date_readable posts →
  ∃ dl, sortStep P currentSort posts = Ok dl ∧ dl ≡ₚ posts.
Proof.
  intros Hs Hd. apply sortStep_dated. rewrite Forall_forall in *.
  intros p Hp. apply post_date_readable; auto.
Qed.

(** C5, as the code has it. On a corpus of posts (objects whose [tags] is
    an array) whose dates [new Date] can read (a [date] that is absent, a
    string, a number, a boolean or null, as in every corpus the XML parser
    builds, or an array or object whose conversion to a string does not
    throw) the filter and sort steps return a display list for every view
    state, whatever else the posts lack and whether or not their dates
    parse; the display list is a rearrangement of the filtered posts. *)
Theorem displayList_total (P : Platform) (corpus : list jsval)
    (currentSort currentTag : string) :
  Forall post_shaped corpus → Forall date_readable corpus →
  ∃ dl, displayList P corpus currentSort currentTag = Ok dl
        ∧ dl ≡ₚ spec_filter currentTag corpus.
Proof.
  intros H Hd. unfold displayList. rewrite (filterStep_refines _ _ H). simpl.
  apply sortStep_shaped; by apply spec_filter_Forall.
Qed.

Lemma displayList_total_witness :
  let corpus := [JObj [("title", JStr "Solo"); ("date", JStr "not-a-date");
                       ("tags", JArr [])];
                 JObj [("tags", JArr [JStr "x"])];
                 JObj [("date", JObj [("year", JNum 2024)]);
                       ("tags", JArr [JStr "x"])]] in
  (Forall post_shaped corpus ∧ Forall date_readable corpus)
  ∧ ∃ dl, displayList demo corpus "date-asc" "x" = Ok dl
          ∧ dl ≡ₚ spec_filter "x" corpus.
Proof.
  intros corpus.
  assert (H : Forall post_shaped corpus) by (repeat constructor).
  assert (Hd : Forall date_readable corpus) by (repeat constructor).
  split; [by split|].
  exact (displayList_total demo corpus "date-asc" "x" H Hd).
Defined.

(** C5 as stated fails on corpora the JSON parser produces.  The text
    [[null, null]] is JSON; the load assigns the two nulls to [allPosts]
    before the tag loop throws, and a click on a sort button then makes
    the comparator read [date] of null.  A post object without [tags]
    makes the filter throw for any tag but ["all"].  And two posts with
    array [tags] of which one has for [date] an object with a property
    [toString] make [new Date] throw in the comparator. *)
Lemma view_engine_can_throw :
  let σ := fetchData demo "posts.json" (ok_response "[null, null]") init in
  let odd := JObj [("date", JObj [("toString", JNum 1)]); ("tags", JArr [])] in
  deref σ (allPosts σ) = [JNull; JNull]
  ∧ currentTag σ = "all"
  ∧ snd (click_sort_asc demo σ)
    = Some (TypeError "Cannot read properties of null")
  ∧ ¬ is_ok (displayList demo (deref σ (allPosts σ)) "date-asc" "all")
  ∧ parseJsonData (JArr [JObj [("title", JStr "x")]])
    = [JObj [("title", JStr "x")]]
  ∧ ¬ is_ok (displayList demo [JObj [("title", JStr "x")]] "date-desc" "x")
  ∧ Forall post_shaped [odd; mkPost "a" "2024-01-01" []]
  ∧ displayList demo [odd; mkPost "a" "2024-01-01" []] "date-desc" "all"
    = Throw (TypeError "Cannot convert object to primitive value").
Proof.
  intros σ odd.
  assert (Hs : Forall post_shaped [odd; mkPost "a" "2024-01-01" []])
    by (by repeat constructor).
  revert Hs. generalize (Forall post_shaped [odd; mkPost "a" "2024-01-01" []]).
  intros Q HQ. vm_compute. repeat split; tauto.
Qed.

(** ** The tag set *)

Lemma same_value_zero_eq a b : same_value_zero a b = true → a = b.
Proof.
  destruct a, b; simpl; try done.
  - intros H. f_equal. by apply Bool.eqb_prop.
  - intros H. f_equal. by apply Z.eqb_eq.
  - intros H. f_equal. by apply String.eqb_eq.
Qed.

Lemma elem_of_set_add tags t v : v ∈ set_add tags t ↔ v ∈ tags ∨ v = t.
Proof.
  unfold set_add. destruct (existsb (same_value_zero t) tags) eqn:E.
  - split; [by left|]. intros [H| ->]; [done|].
    apply existsb_exists in E as (x & Hx & Hs).
    apply same_value_zero_eq in Hs as ->. by apply list_elem_of_In.
  - rewrite elem_of_app, list_elem_of_singleton. tauto.
Qed.

Lemma tag_strings_set_add tags t :
  NoDup (tag_strings tags) → NoDup (tag_strings (set_add tags t)).
Proof.
  intros H. unfold set_add.
  destruct (existsb (same_value_zero t) tags) eqn:E; [done|].
  unfold tag_strings. rewrite omap_app. fold (tag_strings tags).
  destruct t as [| | |s| |]; simpl; rewrite ?app_nil_r; try done.
  apply NoDup_app. split; [done|]. split; [|apply NoDup_singleton].
  intros x Hx ->%list_elem_of_singleton.
  unfold tag_strings in Hx. apply list_elem_of_omap in Hx as (v & Hv & Hs).
  destruct v; try done. injection Hs as ->.
  assert (Hex : existsb (same_value_zero (JStr s)) tags = true).
  { apply existsb_exists. exists (JStr s). split; [by apply list_elem_of_In|].
    simpl. apply String.eqb_refl. }
  congruence.
Qed.

Lemma foldl_set_add tags items :
  (∀ v, v ∈ foldl set_add tags items ↔ v ∈ tags ∨ v ∈ items)
  ∧ (NoDup (tag_strings tags) → NoDup (tag_strings (foldl set_add tags items))).
Proof.
  revert tags. induction items as [|t items IH]; intros tags.
  - split; [|done]. intros v. rewrite elem_of_nil. tauto.
  - destruct (IH (set_add tags t)) as [IH1 IH2]. simpl. split.
    + intros v. rewrite IH1, elem_of_set_add, elem_of_cons. tauto.
    + intros H. by apply IH2, tag_strings_set_add.
Qed.

(** The tag loop on a corpus of posts ends normally with the union of the
    posts' tags added to the set. *)
Lemma collectTags_shaped tags posts :
  Forall post_shaped posts →
  ∃ tags', collectTags tags posts = (tags', None)
    ∧ (∀ v, v ∈ tags' ↔
         v ∈ tags ∨ ∃ post items,
           post ∈ posts ∧ tags_forEach post = Ok items ∧ v ∈ items)
    ∧ (NoDup (tag_strings tags) → NoDup (tag_strings tags')).
Proof.
  intros H. revert tags. induction H as [|post posts Hp _ IH]; intros tags.
  - exists tags. split; [done|]. split; [|done].
    intros v. split; [by left|]. intros [?|(p & i & Hin & _)]; [done|].
    by apply elem_of_nil in Hin.
  - unfold post_shaped in Hp. simpl.
    destruct (tags_forEach post) as [items|] eqn:E; [|done].
    destruct (IH (foldl set_add tags items)) as (tags' & -> & Hu & Hn).
    destruct (foldl_set_add tags items) as [F1 F2].
    exists tags'. split; [done|]. split; [|by auto].
    intros v. rewrite Hu, F1. split.
    + intros [[?|Hv]|(p & i & Hin & Ht & Hv)].
      * by left.
      * right. exists post, items. by rewrite elem_of_cons; auto.
      * right. exists p, i. rewrite elem_of_cons. auto.
    + intros [?|(p & i & Hin & Ht & Hv)]; [by auto|].
      apply elem_of_cons in Hin as [->|Hin].
      * left. right. congruence.
      * right. eauto.
Qed.

(** C7. After a load that built a corpus of posts, starting from the
    empty Set, [allTags] is the one result of the tag loop over
    [allPosts]: it holds exactly the values that occur in some post's tags,
    each string once; an empty corpus gives the empty Set; and no click on
    a tag or sort button changes it. *)
Theorem tag_set_is_union (P : Platform) (dataFile : string) (r : response)
    (σ : state) (posts : list jsval) :
  wf σ → allTags σ = [] → ok r = true →
  parseByExtension P dataFile (text r) = Ok posts →
  Forall post_shaped posts →
  let σ' := fetchData P dataFile (Ok r) σ in
  deref σ' (allPosts σ') = posts
  ∧ allTags σ' = fst (collectTags [] posts)
  ∧ (∀ v, v ∈ allTags σ' ↔
       ∃ post items, post ∈ posts ∧ tags_forEach post = Ok items ∧ v ∈ items)
  ∧ NoDup (tag_strings (allTags σ'))
  ∧ (posts = [] → allTags σ' = [])
  ∧ (∀ tag, allTags (fst (click_tag P tag σ')) = allTags σ')
  ∧ allTags (fst (click_sort_asc P σ')) = allTags σ'
  ∧ allTags (fst (click_sort_desc P σ')) = allTags σ'.
Proof.
  intros W Hempty Hok HP Hshaped σ'. subst σ'.
  pose proof (fetchData_parsed P dataFile r σ posts W Hok HP) as H.
  rewrite Hempty in H.
  destruct (collectTags_shaped [] posts Hshaped) as (tags & E & Hu & Hn).
  rewrite E in H. destruct H as (W' & HA & HT & _).
  rewrite E. split; [done|]. split; [done|]. rewrite HT.
  split; [|split; [|split; [|split; [|split]]]].
  - intros v. rewrite Hu, elem_of_nil. tauto.
  - apply Hn. constructor.
  - intros ->. simpl in E. by injection E as <-.
  - intros tag. unfold click_tag.
    match goal with |- context [updatePosts P ?s] =>
      pose proof (updatePosts_spec P s W') as H;
      destruct (updatePosts P s) as [σ2 e2] end.
    destruct H as (_ & _ & _ & HT2 & _). cbn [fst]. rewrite HT2. exact HT.
  - unfold click_sort_asc.
    match goal with |- context [updatePosts P ?s] =>
      pose proof (updatePosts_spec P s W') as H;
      destruct (updatePosts P s) as [σ2 e2] end.
    destruct H as (_ & _ & _ & HT2 & _). cbn [fst]. rewrite HT2. exact HT.
  - unfold click_sort_desc.
    match goal with |- context [updatePosts P ?s] =>
      pose proof (updatePosts_spec P s W') as H;
      destruct (updatePosts P s) as [σ2 e2] end.
    destruct H as (_ & _ & _ & HT2 & _). cbn [fst]. rewrite HT2. exact HT.
Qed.

Lemma tag_set_is_union_witness :
  let r := {| ok := true; http_status := 200; text := three_posts_json |} in
  let σ' := fetchData demo "posts.json" (Ok r) init in
  (wf init ∧ allTags init = []
   ∧ Forall post_shaped (deref σ' (allPosts σ')))
  ∧ allTags σ' = [JStr "x"; JStr "y"]
  ∧ allTags (fst (click_tag demo "y" σ')) = allTags σ'.
Proof.
  intros r σ'.
  assert (Hs : Forall post_shaped (deref σ' (allPosts σ')))
    by (vm_compute; repeat constructor).
  split; [split; [apply wf_init|split; [reflexivity|exact Hs]]|].
  destruct (tag_set_is_union demo "posts.json" r init _ wf_init
              eq_refl eq_refl eq_refl Hs) as (_ & HT & _ & _ & _ & HC & _).
  split; [exact HT|exact (HC "y")].
Defined.

(** ** Default values *)

Lemma child_text_absent anc scope name :
  querySelector anc scope None name = None → child_text anc scope name = "".
Proof. unfold child_text. by intros ->. Qed.

Lemma child_text_present anc scope name :
  child_text anc scope name
  = match querySelector anc scope None name with
    | Some (_, n) => textContent n
    | None => ""
    end.
Proof.
  unfold child_text.
  by destruct (querySelector anc scope None name) as [[? ?]|].
Qed.

(** C4, as the code has it. The XML parser builds one post per Post
    element of the document, in document order, and the i-th post is an
    object with all five fields read from the i-th element: [title] and
    [content] are strings, the text of the first Title or Content element
    and empty when the element has none; [tags] is the array of the texts
    of its tag elements, possibly empty; [img] is null when there is no
    image element, and otherwise an object whose [src] and [alt] are
    strings, each empty when the image has no such child.  The JSON parser
    builds nothing: its posts are the parsed values themselves. *)
Theorem xml_posts_have_defaults (P : Platform) (text : string) :
  let elements :=
    querySelectorAll [] (doc_node (DOM_parse P text)) None "Post" in
  let posts := parseXmlData P text in
  length posts = length elements
  ∧ (∀ i post, posts !! i = Some post →
       ∃ anc e,
         elements !! i = Some (anc, e)
         ∧ (∃ t, get_prop post "title" = Ok (Some (JStr t))
                 ∧ t = match querySelector anc e None "Title" with
                       | Some (_, n) => textContent n
                       | None => ""
                       end)
         ∧ (∃ c, get_prop post "content" = Ok (Some (JStr c))
                 ∧ c = match querySelector anc e None "Content" with
                       | Some (_, n) => textContent n
                       | None => ""
                       end)
         ∧ get_prop post "tags"
           = Ok (Some (JArr ((fun t => JStr (textContent (snd t)))
                               <$> querySelectorAll anc e (Some "tags") "tag")))
         ∧ match querySelector anc e (Some "img") "image" with
           | None => get_prop post "img" = Ok (Some JNull)
           | Some (ianc, ie) =>
               ∃ src alt,
                 get_prop post "img"
                 = Ok (Some (JObj [("src", JStr src); ("alt", JStr alt)]))
                 ∧ (querySelector ianc ie None "src" = None → src = "")
                 ∧ (querySelector ianc ie None "alt" = None → alt = "")
           end
         ∧ post_shaped post)
  ∧ ∀ data p, p ∈ parseJsonData data →
      p = data ∨ ∃ items, data = JArr items ∧ p ∈ items.
Proof.
  intros elements posts. split; [|split].
  - unfold posts, parseXmlData, parseXmlDoc. by rewrite length_fmap.
  - intros i post Hi. unfold posts, parseXmlData, parseXmlDoc in Hi.
    rewrite list_lookup_fmap in Hi. fold elements in Hi.
    destruct (elements !! i) as [[anc e]|]; [|done].
    injection Hi as <-. exists anc, e. split; [done|].
    unfold parseXmlPost. split; [|split; [|split; [|split]]].
    + eexists. split; [reflexivity|]. apply child_text_present.
    + eexists. split; [reflexivity|]. apply child_text_present.
    + reflexivity.
    + destruct (querySelector anc e (Some "img") "image") as [[ianc ie]|].
      * do 2 eexists. split; [reflexivity|].
        split; apply child_text_absent.
      * reflexivity.
    + done.
  - intros data p Hp. destruct data; simpl in Hp;
      try (apply list_elem_of_singleton in Hp; by left).
    right. eauto.
Qed.

Lemma xml_posts_have_defaults_witness :
  let post := JObj [("title", JStr ""); ("date", JStr "2024-01-01");
                    ("content", JStr ""); ("img", JNull); ("tags", JArr [])] in
  parseXmlData demo sparse_xml !! 0%nat = Some post
  ∧ (∃ anc e,
       querySelectorAll [] (doc_node (DOM_parse demo sparse_xml)) None "Post"
         !! 0%nat = Some (anc, e)
       ∧ querySelector anc e None "Title" = None)
  ∧ post_shaped post
  ∧ get_prop post "title" = Ok (Some (JStr "")).
Proof.
  intros post.
  assert (Hi : parseXmlData demo sparse_xml !! 0%nat = Some post)
    by (vm_compute; reflexivity).
  split; [exact Hi|].
  destruct (xml_posts_have_defaults demo sparse_xml) as (_ & H & _).
  destruct (H 0%nat post Hi) as (anc & e & He & (t & Ht & Et) & _ & _ & _ & Hs).
  split; [|split; [exact Hs|reflexivity]].
  exists anc, e. split; [exact He|].
  vm_compute in He. injection He as <- <-. reflexivity.
Defined.

(** C4 as stated fails for JSON: a post object without [title] and
    [content] loads without error and still has neither. *)
Lemma json_post_keeps_absent_title :
  let σ := fetchData demo "posts.json"
             (ok_response (json_text "{'date':'2024-01-01','tags':[]}")) init in
  message σ = Hidden
  ∧ deref σ (allPosts σ) = [JObj [("date", JStr "2024-01-01");
                                  ("tags", JArr [])]]
  ∧ Forall (fun post => get_prop post "title" = Ok None
                        ∧ get_prop post "title" ≠ Ok (Some (JStr ""))
                        ∧ get_prop post "content" = Ok None)
           (deref σ (allPosts σ)).
Proof. vm_compute. repeat split; try discriminate. repeat constructor; discriminate. Qed.

(** ** The sort step *)

Lemma cf_asc_valid P a b :
  valid_date P a → valid_date P b →
  f_asc P a b = Some (time_of P a - time_of P b)
  ∧ cf (f_asc P) a b = time_of P a - time_of P b.
Proof.
  unfold valid_date, cf, f_asc, time_of.
  by intros [x ->] [y ->].
Qed.

Lemma cf_desc_valid P a b :
  valid_date P a → valid_date P b →
  f_desc P a b = Some (time_of P b - time_of P a)
  ∧ cf (f_desc P) a b = time_of P b - time_of P a.
Proof.
  unfold valid_date, cf, f_desc, time_of.
  by intros [x ->] [y ->].
Qed.

(** On posts with valid dates both comparators are consistent. *)
Lemma consistent_asc P l : Forall (valid_date P) l → consistent (f_asc P) l.
Proof.
  rewrite Forall_forall. intros H.
  assert (E : ∀ a b, a ∈ l → b ∈ l →
                cf (f_asc P) a b = time_of P a - time_of P b).
  { intros a b Ha Hb. by apply cf_asc_valid; apply H. }
  constructor.
  - intros a b Ha Hb. destruct (cf_asc_valid P a b) as [-> _]; by auto.
  - intros a Ha. rewrite E by done. lia.
  - intros a b Ha Hb. rewrite !E by done. lia.
  - intros a b c Ha Hb Hc. rewrite !E by done. lia.
  - intros a b c Ha Hb Hc. rewrite !E by done. lia.
  - intros a b c Ha Hb Hc. rewrite !E by done. lia.
Qed.

Lemma consistent_desc P l : Forall (valid_date P) l → consistent (f_desc P) l.
Proof.
  rewrite Forall_forall. intros H.
  assert (E : ∀ a b, a ∈ l → b ∈ l →
                cf (f_desc P) a b = time_of P b - time_of P a).
  { intros a b Ha Hb. by apply cf_desc_valid; apply H. }
  constructor.
  - intros a b Ha Hb. destruct (cf_desc_valid P a b) as [-> _]; by auto.
  - intros a Ha. rewrite E by done. lia.
  - intros a b Ha Hb. rewrite !E by done. lia.
  - intros a b c Ha Hb Hc. rewrite !E by done. lia.
  - intros a b c Ha Hb Hc. rewrite !E by done. lia.
  - intros a b c Ha Hb Hc. rewrite !E by done. lia.
Qed.

Lemma filter_ext_in (Q1 Q2 : jsval → Prop)
    `{∀ x, Decision (Q1 x)} `{∀ x, Decision (Q2 x)} (l : list jsval) :
  (∀ x, x ∈ l → Q1 x ↔ Q2 x) → filter Q1 l = filter Q2 l.
Proof.
  induction l as [|x l IH]; intros HQ; [done|].
  rewrite !filter_cons, IH by (intros y Hy; apply HQ; by right).
  pose proof (HQ x (list_elem_of_here x l)).
  repeat case_decide; tauto || done.
Qed.

Lemma StronglySorted_impl_in (R1 R2 : jsval → jsval → Prop) l :
  (∀ a b, a ∈ l → b ∈ l → R1 a b → R2 a b) →
  StronglySorted R1 l → StronglySorted R2 l.
Proof.
  intros HR HS. induction HS as [|a l HS IH HF]; constructor.
  - apply IH. intros x y Hx Hy. apply HR; by right.
  - rewrite Forall_forall in *. intros x Hx.
    apply HR; [by left|by right|by apply HF].
Qed.

(** What a sort order means for posts with valid dates, read with the
    time values [t]: no later post has a smaller key, and the posts of
    one date keep their order. *)
Lemma sort_order_by_time P f (key : jsval → Z) old new :
  Forall (valid_date P) old →
  (∀ a b, a ∈ old → b ∈ old → cf f a b = key a - key b) →
  (∀ a b, a ∈ old → b ∈ old → key a = key b ↔ time_of P a = time_of P b) →
  sort_order f old new →
  StronglySorted (fun a b => key a ≤ key b) new
  ∧ ∀ d, filter (fun p => date_of P p = Some d) new
         = filter (fun p => date_of P p = Some d) old.
Proof.
  intros Hv Hcf Hkey [Hperm Hsorted Hstable]. split.
  - eapply StronglySorted_impl_in; [|exact Hsorted].
    intros a b Ha Hb. rewrite Hperm in Ha, Hb. simpl.
    rewrite Hcf by done. lia.
  - intros d. rewrite Forall_forall in Hv.
    assert (Hd : ∀ a x, a ∈ old → x ∈ old → date_of P a = Some d →
                   cf f a x = 0 ↔ date_of P x = Some d).
    { intros a x Ha Hx Hda. rewrite Hcf by done.
      pose proof (Hkey a x Ha Hx) as Hk.
      destruct (Hv x Hx) as [tx Htx].
      unfold time_of in Hk. rewrite Hda, Htx in Hk. simpl in Hk.
      rewrite Htx. split.
      - intros E. f_equal. symmetry. apply Hk. lia.
      - intros [= ->]. destruct Hk as [_ Hk]. specialize (Hk eq_refl). lia. }
    destruct (decide (Exists (fun p => date_of P p = Some d) old)) as [He|Hn].
    + apply Exists_exists in He as (a & Ha & Hda).
      rewrite <- (filter_ext_in (fun x => cf f a x = 0) _ old)
        by (intros x Hx; by apply Hd).
      rewrite <- (filter_ext_in (fun x => cf f a x = 0) _ new).
      * by apply Hstable.
      * intros x Hx. rewrite Hperm in Hx. by apply Hd.
    + apply not_Exists_Forall in Hn; [|apply _].
      rewrite !MergeSortFacts.filter_none; [done|done|].
      by rewrite Hperm.
Qed.

(** C1, as the code has it. When every post that enters the sort step has
    a valid date, the sort step returns, on every platform and in both
    sort orders, a rearrangement of the filtered posts ordered by date
    (ascending or descending) in which the posts of one date keep the
    order they had in the filtered corpus.  With an invalid date among
    them the comparator returns NaN and the order the native sort leaves
    is up to the platform. *)
Theorem sort_is_stable_on_valid_dates (P : Platform) (corpus : list jsval)
    (currentTag : string) :
  Forall post_shaped corpus →
  Forall (valid_date P) (spec_filter currentTag corpus) →
  let filtered := spec_filter currentTag corpus in
  (∃ dl, displayList P corpus "date-asc" currentTag = Ok dl
         ∧ dl ≡ₚ filtered
         ∧ StronglySorted (fun a b => time_of P a ≤ time_of P b) dl
         ∧ ∀ d, filter (fun p => date_of P p = Some d) dl
                = filter (fun p => date_of P p = Some d) filtered)
  ∧ (∃ dl, displayList P corpus "date-desc" currentTag = Ok dl
           ∧ dl ≡ₚ filtered
           ∧ StronglySorted (fun a b => time_of P b ≤ time_of P a) dl
           ∧ ∀ d, filter (fun p => date_of P p = Some d) dl
                  = filter (fun p => date_of P p = Some d) filtered).
Proof.
  intros Hs Hv filtered. unfold displayList.
  rewrite (filterStep_refines _ _ Hs). fold filtered.
  change (let* fl := Ok filtered in sortStep P "date-asc" fl)
    with (array_sort P (cmp_asc P) filtered).
  change (let* fl := Ok filtered in sortStep P "date-desc" fl)
    with (array_sort P (cmp_desc P) filtered).
  fold filtered in Hv.
  assert (Hv' := Hv). rewrite Forall_forall in Hv'.
  split.
  - destruct (array_sort_spec P (cmp_asc P) (f_asc P) filtered)
      as (dl & E & Hp & Ho).
    { intros a b Ha Hb. apply cmp_asc_ok; by apply post_date_valid, Hv'. }
    exists dl. split; [done|]. split; [done|].
    specialize (Ho (consistent_asc P filtered Hv)).
    apply (sort_order_by_time P (f_asc P) (time_of P) filtered dl);
      [done| |done|done].
    intros a b Ha Hb. by apply cf_asc_valid; apply Hv'.
  - destruct (array_sort_spec P (cmp_desc P) (f_desc P) filtered)
      as (dl & E & Hp & Ho).
    { intros a b Ha Hb. apply cmp_desc_ok; by apply post_date_valid, Hv'. }
    exists dl. split; [done|]. split; [done|].
    specialize (Ho (consistent_desc P filtered Hv)).
    destruct (sort_order_by_time P (f_desc P) (fun p => - time_of P p)
                filtered dl) as [H1 H2]; [done| | |done|].
    + intros a b Ha Hb.
      destruct (cf_desc_valid P a b) as [_ ->]; [by apply Hv'..|]. lia.
    + intros a b _ _. lia.
    + split; [|done].
      eapply StronglySorted_impl_in; [|exact H1]. simpl. intros. lia.
Qed.

Lemma sort_is_stable_on_valid_dates_witness :
  (Forall post_shaped dated_corpus
   ∧ Forall (valid_date demo) (spec_filter "x" dated_corpus))
  ∧ titles_of (displayList demo dated_corpus "date-asc" "x")
    = Ok ["first"; "second"; "late"]
  ∧ titles_of (displayList demo dated_corpus "date-desc" "x")
    = Ok ["late"; "first"; "second"]
  ∧ ∃ dl, displayList demo dated_corpus "date-desc" "x" = Ok dl
          ∧ dl ≡ₚ spec_filter "x" dated_corpus.
Proof.
  assert (Hs : Forall post_shaped dated_corpus) by (repeat constructor).
  assert (Hv : Forall (valid_date demo) (spec_filter "x" dated_corpus)).
  { assert (E : spec_filter "x" dated_corpus
                = [mkPost "first" "2023-06-01" ["x"];
                   mkPost "late" "2024-01-01" ["x"];
                   mkPost "second" "2023-06-01" ["x"]]) by reflexivity.
    rewrite E. repeat constructor; eexists; vm_compute; reflexivity. }
  split; [by split|]. split; [reflexivity|]. split; [reflexivity|].
  destruct (sort_is_stable_on_valid_dates demo dated_corpus "x" Hs Hv)
    as [_ (dl & E & Hp & _)].
  exists dl. by split.
Defined.

(** C1 as stated fails on a platform whose native sort is a merge sort.
    Ascending, the post with the invalid date moves from the third place
    to the last, though descending it stays where it was; and with an
    invalid date in the corpus two posts of one date change places. *)
Lemma invalid_date_post_migrates :
  let corpus := [mkPost "a" "2024-01-01" []; mkPost "b" "2023-01-01" [];
                 mkPost "i" "not-a-date" []; mkPost "c" "2022-01-01" [];
                 mkPost "d" "2021-01-01" []; mkPost "e" "2020-01-01" []] in
  let ties := [mkPost "n" "2029-01-01" []; mkPost "i" "not-a-date" [];
               mkPost "first" "2025-01-01" []; mkPost "second" "2025-01-01" [];
               mkPost "p" "2026-01-01" []; mkPost "q" "2027-01-01" []] in
  date_of demo (mkPost "i" "not-a-date" []) = None
  ∧ titles_of (displayList demo corpus "date-asc" "all")
    = Ok ["e"; "d"; "c"; "b"; "a"; "i"]
  ∧ titles_of (displayList demo corpus "date-desc" "all")
    = Ok ["a"; "b"; "i"; "c"; "d"; "e"]
  ∧ titles_of (displayList demo ties "date-asc" "all")
    = Ok ["second"; "p"; "q"; "n"; "i"; "first"].
Proof. vm_compute. repeat split. Qed.

(** The display list of a corpus of posts exists and rearranges the posts
    the filter keeps. *)
Lemma displayList_shaped P corpus currentSort currentTag :
  Forall post_shaped corpus → Forall date_readable corpus →
  ∃ dl, displayList P corpus currentSort currentTag = Ok dl
        ∧ dl ≡ₚ spec_filter currentTag corpus.
Proof.
  intros H Hd. unfold displayList. rewrite (filterStep_refines _ _ H). simpl.
  apply sortStep_shaped; by apply spec_filter_Forall.
Qed.

(** ** Loads that fail *)

(** X1. A load that fails before the parse step has returned changes
    nothing but the message, and the message names the cause: a rejected
    fetch, a response that is not OK (whatever its body and whatever the
    extension), an extension that is neither [.json] nor [.xml] (whatever
    the body), or JSON text that does not parse. *)
Theorem load_fails_before_assignment (P : Platform) (dataFile : string)
    (fetched : result response) (σ : state) (e : exn) :
  fetched = Throw e
  ∨ (∃ r, fetched = Ok r ∧ ok r = false
          ∧ e = Error ("HTTP error! Status: " +:+ pretty (http_status r)))
  ∨ (∃ r, fetched = Ok r ∧ ok r = true
          ∧ endsWith dataFile ".json" = false
          ∧ endsWith dataFile ".xml" = false
          ∧ e = Error "Unsupported file type. Please use .json or .xml.")
  ∨ (∃ r, fetched = Ok r ∧ ok r = true
          ∧ endsWith dataFile ".json" = true
          ∧ JSON_parse P (text r) = Throw e) →
  let σ' := fetchData P dataFile fetched σ in
  σ' = set_message (load_error dataFile e) σ
  ∧ heap σ' = heap σ
  ∧ allPosts σ' = allPosts σ
  ∧ displayedPosts σ' = displayedPosts σ
  ∧ allTags σ' = allTags σ.
Proof.
  intros H σ'.
  assert (E : σ' = set_message (load_error dataFile e) σ);
    [|by rewrite E].
  subst σ'. unfold fetchData, fetchData_try.
  destruct H as [->|[(r & -> & Hok & ->)|[(r & -> & Hok & Hj & Hx & ->)
                                          |(r & -> & Hok & Hj & HJ)]]].
  - done.
  - by rewrite Hok.
  - rewrite Hok. simpl negb. cbv iota.
    unfold parseByExtension. by rewrite Hj, Hx.
  - rewrite Hok. simpl negb. cbv iota.
    unfold parseByExtension. by rewrite Hj, HJ.
Qed.

Lemma load_fails_before_assignment_witness :
  let r := {| ok := false; http_status := 404; text := scenarioA_xml |} in
  let σ' := fetchData demo "posts.xml" (Ok r) scenarioA in
  message σ' = ErrorMsg "Error: Failed to load data. Make sure 'posts.xml' exists in the same directory. HTTP error! Status: 404"
  ∧ heap σ' = heap scenarioA
  ∧ allPosts σ' = allPosts scenarioA.
Proof.
  intros r σ'.
  destruct (load_fails_before_assignment demo "posts.xml" (Ok r) scenarioA
              (Error ("HTTP error! Status: " +:+ pretty 404)))
    as (E & Hh & Ha & _).
  { right. left. exists r. repeat split. }
  split; [|by split]. fold σ' in E. rewrite E. reflexivity.
Defined.

Lemma collectTags_stops tags good bad rest :
  Forall post_shaped good → ¬ post_shaped bad →
  ∃ e, tags_forEach bad = Throw e
       ∧ collectTags tags (good ++ bad :: rest)
         = (fst (collectTags tags good), Some e).
Proof.
  intros Hg Hb. revert tags.
  induction Hg as [|post good Hp _ IH]; intros tags.
  - simpl. unfold post_shaped in Hb.
    destruct (tags_forEach bad) as [items|e]; [by destruct Hb|]. eauto.
  - simpl. unfold post_shaped in Hp.
    destruct (tags_forEach post) as [items|]; [|done]. apply IH.
Qed.

(** X2. A load is not all-or-nothing once the text has parsed.  When the
    parsed posts are some posts with array [tags], then a value the tag
    loop cannot read (null, a scalar, an object without [tags] or with
    [tags] that is no array), then anything, the load ends with the error
    message, but [allPosts] holds all the parsed values and [allTags] has
    gained the tags of the posts before the unreadable one.  The displayed
    array is what it was. *)
Theorem failed_load_keeps_corpus_and_partial_tags (P : Platform)
    (dataFile : string) (r : response) (σ : state)
    (good : list jsval) (bad : jsval) (rest : list jsval) :
  wf σ → ok r = true →
  parseByExtension P dataFile (text r) = Ok (good ++ bad :: rest) →
  Forall post_shaped good → ¬ post_shaped bad →
  let σ' := fetchData P dataFile (Ok r) σ in
  (∃ e, tags_forEach bad = Throw e ∧ message σ' = load_error dataFile e)
  ∧ deref σ' (allPosts σ') = good ++ bad :: rest
  ∧ allTags σ' = fst (collectTags (allTags σ) good)
  ∧ (∀ v, v ∈ allTags σ' ↔
       v ∈ allTags σ ∨ ∃ post items,
         post ∈ good ∧ tags_forEach post = Ok items ∧ v ∈ items)
  ∧ deref σ' (displayedPosts σ') = deref σ (displayedPosts σ).
Proof.
  intros W Hok HP Hg Hb σ'. subst σ'.
  pose proof (fetchData_parsed P dataFile r σ _ W Hok HP) as H.
  destruct (collectTags_stops (allTags σ) good bad rest Hg Hb) as (e & He & E).
  rewrite E in H. destruct H as (_ & HA & HT & _ & _ & HM & HD).
  destruct (collectTags_shaped (allTags σ) good Hg) as (tags' & E' & Hu & _).
  split; [by eauto|]. split; [done|]. split; [done|]. split; [|done].
  intros v. rewrite HT, E'. apply Hu.
Qed.

Lemma failed_load_keeps_corpus_and_partial_tags_witness :
  let r := {| ok := true; http_status := 200;
              text := json_text "[{'tags':['a','b']}, {'title':'no tags'}, {'tags':['c']}]" |} in
  let σ' := fetchData demo "posts.json" (Ok r) init in
  length (deref σ' (allPosts σ')) = 3%nat
  ∧ allTags σ' = [JStr "a"; JStr "b"]
  ∧ deref σ' (displayedPosts σ') = [].
Proof.
  intros r σ'.
  destruct (failed_load_keeps_corpus_and_partial_tags demo "posts.json" r init
              [JObj [("tags", JArr [JStr "a"; JStr "b"])]]
              (JObj [("title", JStr "no tags")])
              [JObj [("tags", JArr [JStr "c"])]] wf_init eq_refl eq_refl)
    as (_ & HA & HT & _ & HD).
  { by repeat constructor. }
  { by intros []. }
  fold σ' in HA, HT, HD. rewrite HA, HT, HD. by repeat split.
Defined.

(** ** Loads that succeed *)

Lemma parseXmlPost_shaped p : post_shaped (parseXmlPost p).
Proof. destruct p as [anc e]. unfold parseXmlPost. done. Qed.

Lemma parseXmlDoc_shaped d : Forall post_shaped (parseXmlDoc d).
Proof.
  unfold parseXmlDoc. apply Forall_fmap, Forall_forall.
  intros p _. apply parseXmlPost_shaped.
Qed.

(** ** Facts about conversions and rendering *)

Lemma mapM_cons {A B} (f : A → result B) x l :
  mapM f (x :: l) = let* y := f x in let* ys := mapM f l in Ok (y :: ys).
Proof. reflexivity. Qed.

Lemma mapM_is_ok {A B} (f : A → result B) l :
  is_ok (mapM f l) ↔ Forall (fun x => is_ok (f x)) l.
Proof.
  induction l as [|x l IH]; [by split|].
  rewrite mapM_cons, Forall_cons, <- IH.
  destruct (f x); simpl; [|tauto]. destruct (mapM f l); simpl; tauto.
Qed.

Lemma date_value_is_ok P d : is_ok (date_value P d) ↔ opt_stringable d.
Proof.
  split; [|apply date_value_ok].
  unfold opt_stringable, interpolate, date_value.
  destruct d as [[|[]| | |items|fields]|]; try done.
  - by destruct (toString (JArr items)).
  - by destruct (toString (JObj fields)).
Qed.

Lemma dateText_is_ok P d : is_ok (dateText P d) ↔ opt_stringable d.
Proof.
  rewrite <- (date_value_is_ok P). unfold dateText.
  by destruct (date_value P d).
Qed.

Lemma tagButtonHtml_is_ok tag : is_ok (tagButtonHtml tag) ↔ stringable tag.
Proof.
  unfold tagButtonHtml, stringable. by destruct (toString tag).
Qed.

Lemma renderTag_is_ok tag : is_ok (renderTag tag) ↔ stringable tag.
Proof.
  unfold renderTag, stringable. destruct tag; try done; simpl.
  - by destruct b.
  - match goal with |- context [mapM ?f ?l] => by destruct (mapM f l) end.
  - by destruct (assoc "toString" fields).
Qed.

Lemma renderTags_is_ok tags : is_ok (renderTags tags) ↔ Forall stringable tags.
Proof.
  unfold renderTags. rewrite mapM_is_ok.
  apply Forall_iff. intros tag. apply renderTag_is_ok.
Qed.

Lemma imgHtml_is_ok fields :
  is_ok (imgHtml (JObj fields)) ↔ img_writable (JObj fields).
Proof.
  unfold imgHtml, img_writable. cbn [get_prop bind].
  destruct (assoc "img" fields) as [i|]; [|done].
  destruct i as [| | | | |fs];
    try (simpl; repeat case_match; simpl; intuition discriminate).
  cbn [get_prop truthy bind]. unfold opt_stringable.
  destruct (truthy (assoc "src" fs)); [|simpl; intuition discriminate].
  destruct (interpolate (assoc "src" fs)); simpl; [|tauto].
  destruct (interpolate (assoc "alt" fs)); simpl; tauto.
Qed.

Lemma tagButtonsHtml_is_ok post :
  is_ok (tagButtonsHtml post)
  ↔ post_shaped post
    ∧ match tags_forEach post with
      | Ok items => Forall stringable items
      | Throw _ => True
      end.
Proof.
  unfold tagButtonsHtml, post_shaped, tags_forEach.
  destruct (get_prop post "tags") as [[[| | | |items|]|]|]; simpl; try tauto.
  pose proof (mapM_is_ok tagButtonHtml items) as H.
  destruct (mapM tagButtonHtml items); simpl in *.
  - split; [|done]. intros _. split; [done|].
    eapply Forall_impl; [by apply H|]. intros x. apply tagButtonHtml_is_ok.
  - split; [done|]. intros [_ HF]. apply H.
    eapply Forall_impl; [exact HF|]. intros x. apply tagButtonHtml_is_ok.
Qed.

(** [renderPost] returns a card exactly for the posts it can write
    out. *)
Lemma renderPost_is_ok P post : is_ok (renderPost P post) ↔ renderable post.
Proof.
  unfold renderable.
  destruct post as [| | | | |fields];
    try (split; [done|by intros [[] _]]).
  pose proof (imgHtml_is_ok fields) as Hi.
  pose proof (tagButtonsHtml_is_ok (JObj fields)) as Ht.
  pose proof (dateText_is_ok P (assoc "date" fields)) as Hd.
  unfold renderPost, date_readable. cbn [get_prop].
  unfold opt_stringable in *.
  destruct (imgHtml (JObj fields)); simpl in *; [|tauto].
  destruct (tagButtonsHtml (JObj fields)); simpl in *; [|tauto].
  destruct (interpolate (assoc "title" fields)); simpl; [|tauto].
  destruct (dateText P (assoc "date" fields)); simpl in *; [|tauto].
  destruct (interpolate (assoc "content" fields)); simpl; tauto.
Qed.

Lemma renderable_shaped post : renderable post → post_shaped post.
Proof. by intros [H _]. Qed.

Lemma renderable_readable post : renderable post → date_readable post.
Proof. by intros (_ & _ & _ & H & _). Qed.

Lemma appendCards_renderable P cards posts :
  Forall renderable posts →
  ∃ cs, appendCards P cards posts = (cards ++ cs, None)
        ∧ Ok <$> cs = renderPost P <$> posts.
Proof.
  intros H. revert cards. induction H as [|post posts Hp _ IH]; intros cards.
  - exists []. by rewrite app_nil_r.
  - apply (renderPost_is_ok P) in Hp. simpl.
    destruct (renderPost P post) as [c|]; [|done].
    destruct (IH (cards ++ [c])) as (cs & -> & E).
    exists (c :: cs). rewrite <- app_assoc. split; [done|].
    rewrite !fmap_cons, E. by f_equal.
Qed.

Lemma appendCards_stops P cards good bad rest :
  Forall renderable good → ¬ renderable bad →
  ∃ cs e, appendCards P cards (good ++ bad :: rest) = (cards ++ cs, Some e)
          ∧ Ok <$> cs = renderPost P <$> good
          ∧ renderPost P bad = Throw e.
Proof.
  intros Hg Hb. revert cards. induction Hg as [|post good Hp _ IH]; intros cards.
  - rewrite <- (renderPost_is_ok P bad) in Hb. simpl.
    destruct (renderPost P bad) as [c|e]; [by destruct Hb|].
    exists [], e. by rewrite app_nil_r.
  - apply (renderPost_is_ok P) in Hp. simpl.
    destruct (renderPost P post) as [c|]; [|done].
    destruct (IH (cards ++ [c])) as (cs & e & -> & E & Hbad).
    exists (c :: cs), e. rewrite <- app_assoc. split; [done|].
    rewrite !fmap_cons, E. split; [by f_equal|done].
Qed.

Lemma renderPosts_renderable P posts :
  Forall renderable posts → snd (renderPosts P posts) = None.
Proof.
  intros H. unfold renderPosts. destruct (length posts =? 0)%nat; [done|].
  by destruct (appendCards_renderable P [] posts H) as (cs & -> & _).
Qed.

(** The posts of an XML document hold strings only, and an image that is
    null or holds two strings. *)
Lemma parseXmlPost_renderable p : renderable (parseXmlPost p).
Proof.
  destruct p as [anc e]. unfold parseXmlPost, renderable.
  split; [done|]. split.
  { cbn. apply Forall_fmap, Forall_forall. by intros x _. }
  split; [done|]. split; [done|].
  unfold img_writable. cbn.
  by destruct (querySelector anc e (Some "img") "image") as [[ianc ie]|].
Qed.

Lemma parseXmlDoc_renderable d : Forall renderable (parseXmlDoc d).
Proof.
  unfold parseXmlDoc. apply Forall_fmap, Forall_forall.
  intros p _. apply parseXmlPost_renderable.
Qed.

(** A load whose posts can all be written out, into a tag set that can,
    ends with the message hidden and the display list computed. *)
Lemma fetchData_renderable P dataFile r σ posts :
  wf σ → ok r = true →
  parseByExtension P dataFile (text r) = Ok posts →
  Forall stringable (allTags σ) → Forall renderable posts →
  let σ' := fetchData P dataFile (Ok r) σ in
  message σ' = Hidden
  ∧ deref σ' (allPosts σ') = posts
  ∧ (∀ v, v ∈ allTags σ' ↔
       v ∈ allTags σ ∨ ∃ post items,
         post ∈ posts ∧ tags_forEach post = Ok items ∧ v ∈ items)
  ∧ Ok (deref σ' (displayedPosts σ'))
    = displayList P posts (currentSort σ) (currentTag σ)
  ∧ deref σ' (displayedPosts σ') ≡ₚ spec_filter (currentTag σ) posts.
Proof.
  intros W Hok HP Ht Hr σ'. subst σ'.
  assert (Hs : Forall post_shaped posts).
  { eapply Forall_impl; [exact Hr|]. apply renderable_shaped. }
  assert (Hd : Forall date_readable posts).
  { eapply Forall_impl; [exact Hr|]. apply renderable_readable. }
  pose proof (fetchData_parsed P dataFile r σ posts W Hok HP) as H.
  destruct (collectTags_shaped (allTags σ) posts Hs) as (tags & E & Hu & _).
  rewrite E in H.
  assert (HT : Forall stringable tags).
  { apply Forall_forall. intros v Hv. apply Hu in Hv.
    destruct Hv as [Hv|(post & items & Hin & Hi & Hv)].
    - rewrite Forall_forall in Ht. by apply Ht.
    - rewrite Forall_forall in Hr. destruct (Hr post Hin) as (_ & Hi' & _).
      rewrite Hi in Hi'. rewrite Forall_forall in Hi'. by apply Hi'. }
  apply renderTags_is_ok in HT.
  destruct (renderTags tags) as [bs|]; [|done].
  destruct (displayList_shaped P posts (currentSort σ) (currentTag σ) Hs Hd)
    as (dl & ED & Hp).
  rewrite ED in H |- *.
  destruct H as (_ & HA & HTg & _ & _ & HD & HM).
  rewrite renderPosts_renderable in HM.
  2:{ rewrite Hp. by apply spec_filter_Forall. }
  rewrite HA, HTg, HD.
  split; [done|]. split; [done|]. split; [exact Hu|]. by split.
Qed.

(** C2, as the code has it. A load from an [.xml] file never ends in the
    parse step with an error, whatever the text: [DOMParser] returns a
    document for every text, and [parseXmlData] reads the Post elements of
    whatever document it gets.  Started with a tag set whose values have
    strings (as the empty Set the script starts with), every such load
    ends with the message hidden and the corpus holding the posts of that
    document.  The state after the load depends on the text only through
    the posts found in that document, so a text whose document holds no
    Post element (as the error document returned for text that is not
    well-formed) ends, like a well-formed document without posts, with
    the message hidden, an empty corpus, an unchanged tag set and an empty
    display list. *)
Theorem xml_load_reports_no_parse_error (P : Platform) (dataFile : string)
    (r : response) (σ : state) :
  wf σ → Forall stringable (allTags σ) →
  ok r = true → endsWith dataFile ".xml" = true →
  let σ' := fetchData P dataFile (Ok r) σ in
  parseByExtension P dataFile (text r) = Ok (parseXmlData P (text r))
  ∧ message σ' = Hidden
  ∧ deref σ' (allPosts σ') = parseXmlData P (text r)
  ∧ (∀ r2, ok r2 = true →
       parseXmlData P (text r2) = parseXmlData P (text r) →
       fetchData P dataFile (Ok r2) σ = σ')
  ∧ (parseXmlData P (text r) = [] →
       message σ' = Hidden
       ∧ deref σ' (allPosts σ') = []
       ∧ allTags σ' = allTags σ
       ∧ deref σ' (displayedPosts σ') = []).
Proof.
  intros W Ht Hok Hext σ'. subst σ'.
  assert (HP : ∀ t, parseByExtension P dataFile t = Ok (parseXmlData P t)).
  { intros t. unfold parseByExtension.
    by rewrite (endsWith_xml_not_json _ Hext), Hext. }
  destruct (fetchData_renderable P dataFile r σ _ W Hok (HP _) Ht
              (parseXmlDoc_renderable _)) as (HM & HA & _ & _ & Hperm).
  pose proof (fetchData_parsed P dataFile r σ _ W Hok (HP _)) as H.
  split; [apply HP|]. split; [exact HM|]. split; [exact HA|]. split.
  - intros r2 Hok2 Heq. unfold fetchData, fetchData_try.
    rewrite Hok, Hok2. simpl negb. cbv iota. by rewrite !HP, Heq.
  - intros Hnil. rewrite Hnil in H, Hperm, HA. simpl in H.
    destruct H as (_ & _ & HT & _).
    split; [exact HM|]. split; [exact HA|]. split; [exact HT|].
    apply Permutation_nil_r. unfold spec_filter in Hperm.
    by destruct (String.eqb (currentTag σ) "all").
Qed.

Lemma xml_load_reports_no_parse_error_witness :
  let r := {| ok := true; http_status := 200; text := unterminated_xml |} in
  let σ' := fetchData demo "posts.xml" (Ok r) init in
  DOM_parse demo unterminated_xml = HostXML.parsererror
  ∧ message σ' = Hidden
  ∧ deref σ' (allPosts σ') = []
  ∧ allTags σ' = []
  ∧ deref σ' (displayedPosts σ') = [].
Proof.
  intros r σ'. split; [reflexivity|].
  destruct (xml_load_reports_no_parse_error demo "posts.xml" r init wf_init
              (Forall_nil_2 _) eq_refl eq_refl) as (_ & _ & _ & _ & H).
  exact (H eq_refl).
Defined.

(** C2 as stated fails: for text that is not well-formed the load shows
    no error, and ends in the very state a well-formed document without
    posts ends in. *)
Lemma malformed_xml_not_reported :
  let bad := fetchData demo "posts.xml" (ok_response unterminated_xml) init in
  let good := fetchData demo "posts.xml" (ok_response no_posts_xml) init in
  DOM_parse demo unterminated_xml = HostXML.parsererror
  ∧ DOM_parse demo no_posts_xml = [XElem "Posts" []]
  ∧ message bad = Hidden
  ∧ (∀ e, message bad ≠ ErrorMsg e)
  ∧ bad = good.
Proof. vm_compute. repeat split; discriminate. Qed.

(** X3. A load from an [.xml] file with an OK response never ends in the
    error message, whatever the text: the message is hidden, [allPosts]
    holds one post per Post element of the document [DOMParser] returned,
    every one of them with array [tags], [allTags] has gained exactly
    their tags, and the displayed array is the display list of these posts
    for the current view state, a rearrangement of the posts the filter
    keeps. *)
Theorem xml_load_succeeds (P : Platform) (dataFile : string) (r : response)
    (σ : state) :
  wf σ → Forall stringable (allTags σ) →
  ok r = true → endsWith dataFile ".xml" = true →
  let σ' := fetchData P dataFile (Ok r) σ in
  let posts := parseXmlData P (text r) in
  message σ' = Hidden
  ∧ deref σ' (allPosts σ') = posts
  ∧ length posts
    = length (querySelectorAll [] (doc_node (DOM_parse P (text r))) None "Post")
  ∧ Forall post_shaped posts
  ∧ (∀ v, v ∈ allTags σ' ↔
       v ∈ allTags σ ∨ ∃ post items,
         post ∈ posts ∧ tags_forEach post = Ok items ∧ v ∈ items)
  ∧ Ok (deref σ' (displayedPosts σ'))
    = displayList P posts (currentSort σ) (currentTag σ)
  ∧ deref σ' (displayedPosts σ') ≡ₚ spec_filter (currentTag σ) posts.
Proof.
  intros W Ht Hok Hext σ' posts. subst σ'.
  assert (HP : parseByExtension P dataFile (text r) = Ok posts).
  { unfold parseByExtension.
    by rewrite (endsWith_xml_not_json _ Hext), Hext. }
  destruct (fetchData_renderable P dataFile r σ posts W Hok HP Ht
              (parseXmlDoc_renderable _)) as (HM & HA & Hu & HD & Hp).
  split; [done|]. split; [done|]. split.
  { unfold posts, parseXmlData, parseXmlDoc. by rewrite length_fmap. }
  split; [apply parseXmlDoc_shaped|]. split; [exact Hu|]. by split.
Qed.

Lemma xml_load_succeeds_witness :
  let r := {| ok := true; http_status := 200; text := sparse_xml |} in
  let σ' := fetchData demo "posts.xml" (Ok r) init in
  message σ' = Hidden
  ∧ length (deref σ' (allPosts σ')) = 2%nat
  ∧ deref σ' (displayedPosts σ')
    ≡ₚ spec_filter "all" (parseXmlData demo sparse_xml).
Proof.
  intros r σ'.
  destruct (xml_load_succeeds demo "posts.xml" r init wf_init
              (Forall_nil_2 _) eq_refl eq_refl)
    as (HM & HA & _ & _ & _ & _ & HD).
  fold σ' in HM, HA, HD. split; [done|]. split; [by rewrite HA|done].
Defined.

(** ** Runs of clicks *)

(** One click: the listener sets its part of the view state and calls
    [updatePosts]. *)
Lemma handle_spec P ev σ :
  wf σ → Forall post_shaped (deref σ (allPosts σ)) →
  Forall date_readable (deref σ (allPosts σ)) →
  let σ' := fst (handle P ev σ) in
  wf σ'
  ∧ deref σ' (allPosts σ') = deref σ (allPosts σ)
  ∧ allTags σ' = allTags σ
  ∧ message σ' = message σ
  ∧ (currentSort σ', currentTag σ')
    = view_after [ev] (currentSort σ, currentTag σ)
  ∧ snd (handle P ev σ) = None
  ∧ Ok (deref σ' (displayedPosts σ'))
    = displayList P (deref σ (allPosts σ)) (currentSort σ') (currentTag σ').
Proof.
  intros W Hs Hd.
  assert (G : ∀ σ0, wf σ0 → deref σ0 (allPosts σ0) = deref σ (allPosts σ) →
            let '(σ', e) := updatePosts P σ0 in
            wf σ' ∧ deref σ' (allPosts σ') = deref σ (allPosts σ)
            ∧ allTags σ' = allTags σ0 ∧ message σ' = message σ0
            ∧ currentSort σ' = currentSort σ0 ∧ currentTag σ' = currentTag σ0
            ∧ e = None
            ∧ Ok (deref σ' (displayedPosts σ'))
              = displayList P (deref σ (allPosts σ))
                  (currentSort σ0) (currentTag σ0)).
  { intros σ0 W0 E0. pose proof (updatePosts_spec P σ0 W0) as H.
    destruct (updatePosts P σ0) as [σ1 e1].
    destruct H as (W1 & A & F & T & S & C & M & D).
    rewrite E0 in D.
    destruct (displayList_shaped P _ (currentSort σ0) (currentTag σ0) Hs Hd)
      as (dl & ED & _).
    rewrite ED in D |- *. destruct D as [-> D].
    repeat split; try done; try apply W1.
    - rewrite A, F; [done|apply W0].
    - by rewrite D. }
  destruct ev as [| |tag]; cbn [handle view_after foldl].
  - specialize (G (set_currentSort "date-asc" σ) W eq_refl).
    unfold click_sort_asc.
    destruct (updatePosts P (set_currentSort "date-asc" σ)) as [σ1 e1].
    destruct G as (? & ? & ? & ? & ES & EC & ? & ?). cbn [fst snd].
    rewrite ES, EC. cbn [set_currentSort set_currentTag allTags message
         currentSort currentTag] in *.
    split; [done|]. by repeat (split; [done|]).
  - specialize (G (set_currentSort "date-desc" σ) W eq_refl).
    unfold click_sort_desc.
    destruct (updatePosts P (set_currentSort "date-desc" σ)) as [σ1 e1].
    destruct G as (? & ? & ? & ? & ES & EC & ? & ?). cbn [fst snd].
    rewrite ES, EC. cbn [set_currentSort set_currentTag allTags message
         currentSort currentTag] in *.
    split; [done|]. by repeat (split; [done|]).
  - specialize (G (set_currentTag tag σ) W eq_refl).
    unfold click_tag.
    destruct (updatePosts P (set_currentTag tag σ)) as [σ1 e1].
    destruct G as (? & ? & ? & ? & ES & EC & ? & ?). cbn [fst snd].
    rewrite ES, EC. cbn [set_currentSort set_currentTag allTags message
         currentSort currentTag] in *.
    split; [done|]. by repeat (split; [done|]).
Qed.

(** X4. On a corpus of posts with array [tags] whose dates [new Date]
    can read (absent, a primitive, or an array or object that has a
    string), whatever sort and tag buttons are clicked in whatever order,
    the filter and sort steps of every click return, the corpus, the tag
    set and the message stay as they were, the view state is the last sort
    order and the last tag clicked, and (after at least one click) the
    displayed array is the display list of the corpus for that view state:
    a sort click keeps the tag filter, and a tag click keeps the sort
    order. *)
Theorem clicks_keep_view_consistent (P : Platform) (evs : list event)
    (σ : state) :
  wf σ → Forall post_shaped (deref σ (allPosts σ)) →
  Forall date_readable (deref σ (allPosts σ)) →
  let σ' := run P evs σ in
  wf σ'
  ∧ deref σ' (allPosts σ') = deref σ (allPosts σ)
  ∧ allTags σ' = allTags σ
  ∧ message σ' = message σ
  ∧ (currentSort σ', currentTag σ')
    = view_after evs (currentSort σ, currentTag σ)
  ∧ (evs ≠ [] →
     Ok (deref σ' (displayedPosts σ'))
     = displayList P (deref σ (allPosts σ)) (currentSort σ') (currentTag σ')).
Proof.
  revert σ. induction evs as [|ev evs IH]; intros σ W Hs Hd.
  - cbn. split; [done|]. repeat (split; [done|]). intros H. by destruct H.
  - destruct (handle_spec P ev σ W Hs Hd)
      as (W1 & A1 & T1 & M1 & V1 & _ & D1).
    assert (Hs1 : Forall post_shaped
                    (deref (fst (handle P ev σ))
                           (allPosts (fst (handle P ev σ)))))
      by by rewrite A1.
    assert (Hd1 : Forall date_readable
                    (deref (fst (handle P ev σ))
                           (allPosts (fst (handle P ev σ)))))
      by by rewrite A1.
    specialize (IH _ W1 Hs1 Hd1).
    change (run P (ev :: evs) σ) with (run P evs (fst (handle P ev σ))).
    destruct IH as (W' & A' & T' & M' & V' & D').
    rewrite A1 in A', D'. rewrite T1 in T'. rewrite M1 in M'.
    rewrite V1 in V'.
    split; [done|]. split; [done|]. split; [done|]. split; [done|].
    split; [exact V'|]. intros _.
    destruct evs as [|ev2 evs]; [exact D1|]. by apply D'.
Qed.

Lemma clicks_keep_view_consistent_witness :
  let σ' := run demo [TagClick "x"; SortAsc; TagClick "y"; SortDesc; SortAsc]
              scenarioA in
  (currentSort σ', currentTag σ') = ("date-asc", "y")
  ∧ Ok (deref σ' (displayedPosts σ'))
    = displayList demo (deref scenarioA (allPosts scenarioA))
        (currentSort σ') (currentTag σ')
  ∧ deref σ' (allPosts σ') = deref scenarioA (allPosts scenarioA).
Proof.
  intros σ'.
  assert (W : wf scenarioA) by (unfold wf; vm_compute; lia).
  assert (Hs : Forall post_shaped (deref scenarioA (allPosts scenarioA))).
  { vm_compute. by repeat constructor. }
  assert (Hd : Forall date_readable (deref scenarioA (allPosts scenarioA))).
  { vm_compute. by repeat constructor. }
  destruct (clicks_keep_view_consistent demo
              [TagClick "x"; SortAsc; TagClick "y"; SortDesc; SortAsc]
              scenarioA W Hs Hd) as (_ & A & _ & _ & V & D).
  split; [exact V|]. split; [by apply D|exact A].
Defined.

(** ** The order of the tag set *)

Lemma collectTags_stream tags posts :
  Forall post_shaped posts →
  collectTags tags posts = (foldl set_add tags (tag_stream posts), None).
Proof.
  intros H. revert tags. induction H as [|post posts Hp _ IH]; intros tags.
  - done.
  - unfold tag_stream. cbn [flat_map collectTags]. rewrite foldl_app.
    unfold post_tag_items at 1. unfold post_shaped in Hp.
    destruct (tags_forEach post) as [items|]; [|done]. apply IH.
Qed.

Lemma remove_dups_NoDup (l : list string) : NoDup l → remove_dups l = l.
Proof.
  induction 1 as [|x l Hx _ IH]; [done|].
  simpl. destruct (decide_rel elem_of x l); [done|]. by rewrite IH.
Qed.

Lemma remove_dups_later (x : string) m k :
  x ∈ k → remove_dups (m ++ x :: k) = remove_dups (m ++ k).
Proof.
  intros Hx. induction m as [|y m IH]; simpl.
  - by destruct (decide_rel elem_of x k).
  - rewrite IH.
    destruct (decide_rel elem_of y (m ++ x :: k)) as [H1|H1];
      destruct (decide_rel elem_of y (m ++ k)) as [H2|H2]; try done;
      exfalso.
    + apply H2. apply elem_of_app in H1 as [?|[->|?]%elem_of_cons];
        apply elem_of_app; auto.
    + apply H1. apply elem_of_app in H2 as [?|?]; apply elem_of_app;
        [by left|right; by right].
Qed.

Lemma set_add_strings acc s :
  set_add (JStr <$> acc) (JStr s) = JStr <$> add_string acc s.
Proof.
  unfold set_add, add_string.
  destruct (existsb (same_value_zero (JStr s)) (JStr <$> acc)) eqn:E.
  - rewrite decide_True; [done|].
    apply existsb_exists in E as (v & Hv & Hs).
    apply same_value_zero_eq in Hs as <-.
    apply list_elem_of_In, list_elem_of_fmap in Hv as (t & [= ->] & Ht). done.
  - rewrite decide_False; [by rewrite fmap_app|].
    intros Hs. apply Bool.not_true_iff_false in E. apply E.
    apply existsb_exists. exists (JStr s). split.
    + apply list_elem_of_In, list_elem_of_fmap. eauto.
    + simpl. apply String.eqb_refl.
Qed.

Lemma foldl_add_string acc l :
  NoDup acc → foldl add_string acc l = first_occurrences (acc ++ l).
Proof.
  unfold first_occurrences. revert acc.
  induction l as [|x l IH]; intros acc Hn.
  - simpl. rewrite app_nil_r, remove_dups_NoDup by by rewrite reverse_Permutation.
    by rewrite reverse_involutive.
  - simpl. unfold add_string at 2. destruct (decide (x ∈ acc)) as [Hx|Hx].
    + rewrite IH by done. f_equal.
      rewrite !reverse_app, reverse_cons, <- app_assoc. simpl.
      symmetry. apply remove_dups_later. by apply elem_of_reverse.
    + rewrite IH.
      * by rewrite <- app_assoc.
      * apply NoDup_app. split; [done|]. split; [|apply NoDup_singleton].
        intros y Hy ->%list_elem_of_singleton. done.
Qed.

(** X5. The tag set lists the tags in the order of their first occurrence
    in the corpus, post by post and within a post in the order of its
    [tags]: for posts whose tags are all strings (as XML posts are),
    [allTags] after the tag loop from the empty Set is the stream of tags
    with every repeat dropped. *)
Theorem tags_in_first_occurrence_order (posts : list jsval) :
  Forall post_shaped posts → Forall is_string (tag_stream posts) →
  collectTags [] posts
  = (JStr <$> first_occurrences (tag_strings (tag_stream posts)), None).
Proof.
  intros Hs Hstr. rewrite (collectTags_stream _ _ Hs). f_equal.
  assert (E : tag_stream posts = JStr <$> tag_strings (tag_stream posts)).
  { induction Hstr as [|v l Hv _ IH]; [done|].
    destruct v; try done. unfold tag_strings in *. simpl. f_equal. exact IH. }
  rewrite E at 1.
  change (@nil jsval) with (JStr <$> @nil string).
  generalize (tag_strings (tag_stream posts)) as l. intros l.
  pose proof (foldl_add_string [] l ltac:(constructor)) as F.
  simpl in F. rewrite <- F. clear F.
  generalize (@nil string) as acc. induction l as [|x l IH]; intros acc.
  - done.
  - simpl. rewrite set_add_strings. apply IH.
Qed.

Lemma tags_in_first_occurrence_order_witness :
  let posts := [mkPost "a" "2024-01-01" ["y"; "x"; "y"];
                mkPost "b" "2023-01-01" ["z"; "x"];
                mkPost "c" "2022-01-01" []; mkPost "d" "2021-01-01" ["w"; "z"]] in
  collectTags [] posts = ([JStr "y"; JStr "x"; JStr "z"; JStr "w"], None).
Proof.
  intros posts.
  rewrite (tags_in_first_occurrence_order posts).
  - reflexivity.
  - by repeat constructor.
  - by repeat constructor.
Defined.

(** ** The sort order is unique *)

(** Two lists in sort order for the same items are equal. *)
Lemma sorted_stable_unique f S l1 l2 :
  consistent f S → l1 ⊆ S → l1 ≡ₚ l2 →
  StronglySorted (fun a b => cf f a b ≤ 0) l1 →
  StronglySorted (fun a b => cf f a b ≤ 0) l2 →
  (∀ a, a ∈ S → filter (fun x => cf f a x = 0) l1
                = filter (fun x => cf f a x = 0) l2) →
  l1 = l2.
Proof.
  intros HC. revert l2. induction l1 as [|x l1 IH]; intros l2 HS Hp S1 S2 Hf.
  - by apply Permutation_nil_l in Hp.
  - destruct l2 as [|y l2].
    { symmetry in Hp. by apply Permutation_nil_cons in Hp. }
    assert (Hx : x ∈ S) by (apply HS; by left).
    assert (Hy : y ∈ S).
    { apply HS. rewrite Hp. by left. }
    apply StronglySorted_inv in S1 as [S1 F1].
    apply StronglySorted_inv in S2 as [S2 F2].
    rewrite Forall_forall in F1, F2.
    pose proof (cons_refl f S HC x Hx) as Rx.
    pose proof (cons_refl f S HC y Hy) as Ry.
    assert (Lxy : cf f x y ≤ 0).
    { assert (Hin : y ∈ x :: l1) by (rewrite Hp; by left).
      apply elem_of_cons in Hin as [->|Hin]; [lia|by apply F1]. }
    assert (Lyx : cf f y x ≤ 0).
    { assert (Hin : x ∈ y :: l2) by (rewrite <- Hp; by left).
      apply elem_of_cons in Hin as [->|Hin]; [lia|by apply F2]. }
    assert (Exy : cf f x y = 0).
    { destruct (Z.eq_dec (cf f x y) 0) as [?|N]; [done|].
      pose proof (MergeSortFacts.cf_lt_gt f S HC x y Hx Hy). lia. }
    assert (E : x = y).
    { pose proof (Hf x Hx) as H.
      rewrite !filter_cons, !decide_True in H by done. by injection H. }
    subst y. f_equal. apply IH; [|by apply Permutation_cons_inv in Hp|done..|].
    + intros z Hz. apply HS. by right.
    + intros a Ha. pose proof (Hf a Ha) as H. rewrite !filter_cons in H.
      destruct (decide (cf f a x = 0)); [by injection H|done].
Qed.

Lemma sort_order_unique f old l1 l2 :
  consistent f old → sort_order f old l1 → sort_order f old l2 → l1 = l2.
Proof.
  intros HC [P1 S1 F1] [P2 S2 F2].
  apply (sorted_stable_unique f old); try done.
  - intros z Hz. by rewrite <- P1.
  - by rewrite P1, P2.
  - intros a Ha. by rewrite F1, F2.
Qed.

(** On posts with valid dates each sort button puts the posts in the sort
    order of its comparator. *)
Lemma sortStep_order P currentSort posts :
  Forall post_shaped posts → Forall (valid_date P) posts →
  currentSort = "date-asc" ∨ currentSort = "date-desc" →
  consistent (f_of P currentSort) posts
  ∧ ∃ dl, sortStep P currentSort posts = Ok dl
          ∧ sort_order (f_of P currentSort) posts dl.
Proof.
  intros Hs Hv Hsort. assert (Hs' := Hv). rewrite Forall_forall in Hs'.
  destruct Hsort as [->| ->]; unfold f_of, sortStep; simpl.
  - split; [by apply consistent_asc|].
    destruct (array_sort_spec P (cmp_asc P) (f_asc P) posts)
      as (dl & E & _ & Ho).
    { intros a b Ha Hb. apply cmp_asc_ok; by apply post_date_valid, Hs'. }
    exists dl. split; [done|]. by apply Ho, consistent_asc.
  - split; [by apply consistent_desc|].
    destruct (array_sort_spec P (cmp_desc P) (f_desc P) posts)
      as (dl & E & _ & Ho).
    { intros a b Ha Hb. apply cmp_desc_ok; by apply post_date_valid, Hs'. }
    exists dl. split; [done|]. by apply Ho, consistent_desc.
Qed.

Lemma List_filter_stdpp (p : jsval → bool) (l : list jsval) :
  List.filter p l = filter (fun x => p x = true) l.
Proof.
  induction l as [|x l IH]; [done|].
  rewrite filter_cons. simpl. rewrite IH.
  destruct (p x); by case_decide.
Qed.

Lemma StronglySorted_filter (R : jsval → jsval → Prop) (Q : jsval → Prop)
    `{∀ x, Decision (Q x)} l :
  StronglySorted R l → StronglySorted R (filter Q l).
Proof.
  induction 1 as [|x l HS IH HF]; [constructor|].
  rewrite filter_cons. case_decide; [|done].
  constructor; [done|]. rewrite Forall_forall in *.
  intros y [_ Hy]%list_elem_of_filter. by apply HF.
Qed.

Lemma filter_comm (Q1 Q2 : jsval → Prop)
    `{∀ x, Decision (Q1 x)} `{∀ x, Decision (Q2 x)} (l : list jsval) :
  filter Q1 (filter Q2 l) = filter Q2 (filter Q1 l).
Proof.
  rewrite !list_filter_filter. apply list_filter_iff. tauto.
Qed.

(** The kept part of a list in sort order is in sort order for the kept
    part of the items. *)
Lemma sort_order_filter f (Q : jsval → Prop) `{∀ x, Decision (Q x)}
    (old new : list jsval) :
  sort_order f old new → sort_order f (filter Q old) (filter Q new).
Proof.
  intros [Hp Hs Hf]. constructor.
  - by rewrite Hp.
  - by apply StronglySorted_filter.
  - intros a [_ Ha]%list_elem_of_filter.
    rewrite (filter_comm _ Q new), (filter_comm _ Q old). by rewrite Hf.
Qed.

(** X6. Choosing a tag never reorders the posts: on a corpus of posts
    with valid dates, under either sort order, the display list for a tag
    is the display list for ["all"] with the posts that do not carry the
    tag left out. *)
Theorem tag_view_is_filtered_all_view (P : Platform) (corpus : list jsval)
    (currentSort currentTag : string) :
  Forall post_shaped corpus → Forall (valid_date P) corpus →
  currentSort = "date-asc" ∨ currentSort = "date-desc" →
  ∃ dall dtag,
    displayList P corpus currentSort "all" = Ok dall
    ∧ displayList P corpus currentSort currentTag = Ok dtag
    ∧ dtag = spec_filter currentTag dall.
Proof.
  intros Hs Hv Hsort.
  destruct (sortStep_order P currentSort corpus Hs Hv Hsort)
    as (HC & dall & Eall & Oall).
  exists dall. unfold displayList at 1. simpl. rewrite Eall.
  unfold displayList. rewrite (filterStep_refines _ _ Hs). simpl.
  unfold spec_filter. destruct (String.eqb currentTag "all").
  { exists dall. by rewrite Eall. }
  rewrite !List_filter_stdpp.
  set (Q := fun x => carries_tag currentTag x = true).
  assert (Hs' : Forall post_shaped (filter Q corpus)).
  { rewrite Forall_forall in *. intros x [_ Hx]%list_elem_of_filter. auto. }
  assert (Hv' : Forall (valid_date P) (filter Q corpus)).
  { rewrite Forall_forall in *. intros x [_ Hx]%list_elem_of_filter. auto. }
  destruct (sortStep_order P currentSort _ Hs' Hv' Hsort)
    as (HC' & dtag & Etag & Otag).
  exists dtag. split; [done|]. split; [done|].
  apply (sort_order_unique _ _ _ _ HC' Otag).
  by apply sort_order_filter.
Qed.

Lemma tag_view_is_filtered_all_view_witness :
  (Forall post_shaped dated_corpus ∧ Forall (valid_date demo) dated_corpus)
  ∧ ∃ dall dtag,
      displayList demo dated_corpus "date-desc" "all" = Ok dall
      ∧ displayList demo dated_corpus "date-desc" "x" = Ok dtag
      ∧ dtag = spec_filter "x" dall.
Proof.
  assert (Hs : Forall post_shaped dated_corpus) by (repeat constructor).
  assert (Hv : Forall (valid_date demo) dated_corpus).
  { repeat constructor; eexists; vm_compute; reflexivity. }
  split; [by split|].
  apply (tag_view_is_filtered_all_view demo dated_corpus "date-desc" "x" Hs Hv).
  by right.
Defined.

Lemma StronglySorted_reverse (R : jsval → jsval → Prop) l :
  StronglySorted R l → StronglySorted (flip R) (reverse l).
Proof.
  induction 1 as [|x l HS IH HF]; [constructor|].
  rewrite reverse_cons. apply StronglySorted_app_2; [|done|].
  - rewrite Forall_forall in HF.
    intros y z Hy ->%list_elem_of_singleton. apply HF.
    by apply elem_of_reverse.
  - repeat constructor.
Qed.

(** With distinct keys the class of an item holds that item alone. *)
Lemma class_singleton f (key : jsval → Z) l a :
  NoDup (key <$> l) → a ∈ l →
  (∀ x, x ∈ l → cf f a x = 0 ↔ key x = key a) →
  filter (fun x => cf f a x = 0) l = [a].
Proof.
  intros Hn Ha Hk.
  apply list_elem_of_split in Ha as (l1 & l2 & ->).
  rewrite fmap_app, fmap_cons in Hn.
  apply NoDup_app in Hn as (_ & H1 & [H2 _]%NoDup_cons).
  rewrite filter_app, filter_cons, decide_True.
  - rewrite !MergeSortFacts.filter_none; [done|..].
    + apply Forall_forall. intros x Hx Hc. apply H2.
      apply Hk in Hc; [|apply elem_of_app; right; by right].
      rewrite <- Hc. by apply list_elem_of_fmap_2.
    + apply Forall_forall. intros x Hx Hc.
      apply Hk in Hc; [|apply elem_of_app; by left].
      apply (H1 (key x)); [by apply list_elem_of_fmap_2|].
      rewrite Hc. by left.
  - apply Hk; [|done]. apply elem_of_app. right. by left.
Qed.

(** X7. On posts with valid, pairwise different dates the two sort
    buttons give mirror images: the descending display list is the
    ascending one reversed. *)
Theorem descending_reverses_ascending (P : Platform) (corpus : list jsval)
    (currentTag : string) :
  Forall post_shaped corpus →
  Forall (valid_date P) (spec_filter currentTag corpus) →
  NoDup (time_of P <$> spec_filter currentTag corpus) →
  ∃ dl, displayList P corpus "date-asc" currentTag = Ok dl
        ∧ displayList P corpus "date-desc" currentTag = Ok (reverse dl).
Proof.
  intros Hs Hv Hn. unfold displayList.
  rewrite (filterStep_refines _ _ Hs). simpl.
  set (posts := spec_filter currentTag corpus) in *.
  assert (Hsp : Forall post_shaped posts) by by apply spec_filter_Forall.
  destruct (sortStep_order P "date-asc" posts Hsp Hv) as (_ & la & Ea & Oa);
    [by left|].
  destruct (sortStep_order P "date-desc" posts Hsp Hv) as (Cd & ld & Ed & Od);
    [by right|].
  exists la. split; [done|]. rewrite Ed. f_equal.
  apply (sort_order_unique _ _ _ _ Cd Od).
  assert (Hv' := Hv). rewrite Forall_forall in Hv'.
  destruct (sort_order_by_time P (f_asc P) (time_of P) posts la)
    as [Sa _]; [done| |done|exact Oa|].
  { intros a b Ha Hb. by apply cf_asc_valid; apply Hv'. }
  destruct Oa as [Pa _ _].
  change (f_of P "date-desc") with (f_desc P).
  constructor.
  - by rewrite reverse_Permutation.
  - eapply StronglySorted_impl_in;
      [|exact (StronglySorted_reverse _ _ Sa)].
    intros a b Ha Hb. rewrite reverse_Permutation, Pa in Ha, Hb. simpl.
    destruct (cf_desc_valid P a b) as [_ ->]; [by apply Hv'..|].
    unfold flip. lia.
  - intros a Ha.
    rewrite (class_singleton (f_desc P) (time_of P) posts a); [|done..|].
    + apply (class_singleton (f_desc P) (time_of P)).
      * by rewrite reverse_Permutation, Pa.
      * by rewrite reverse_Permutation, Pa.
      * intros x Hx. rewrite reverse_Permutation, Pa in Hx.
        destruct (cf_desc_valid P a x) as [_ ->]; [by apply Hv'..|]. lia.
    + intros x Hx.
      destruct (cf_desc_valid P a x) as [_ ->]; [by apply Hv'..|]. lia.
Qed.

Lemma descending_reverses_ascending_witness :
  let corpus := [mkPost "b" "2023-06-01" []; mkPost "c" "2024-01-01" [];
                 mkPost "a" "2020-01-01" []] in
  (Forall post_shaped corpus
   ∧ Forall (valid_date demo) (spec_filter "all" corpus)
   ∧ NoDup (time_of demo <$> spec_filter "all" corpus))
  ∧ titles_of (displayList demo corpus "date-asc" "all") = Ok ["a"; "b"; "c"]
  ∧ ∃ dl, displayList demo corpus "date-asc" "all" = Ok dl
          ∧ displayList demo corpus "date-desc" "all" = Ok (reverse dl).
Proof.
  intros corpus.
  assert (Hs : Forall post_shaped corpus) by (repeat constructor).
  assert (Hv : Forall (valid_date demo) (spec_filter "all" corpus)).
  { repeat constructor; eexists; vm_compute; reflexivity. }
  assert (Hn : NoDup (time_of demo <$> spec_filter "all" corpus)).
  { apply (bool_decide_unpack _). vm_compute. exact I. }
  split; [by repeat split|]. split; [reflexivity|].
  exact (descending_reverses_ascending demo corpus "all" Hs Hv Hn).
Defined.

(** ** The message box and the tag buttons *)

Lemma inb_elem_of s l : inb s l = true ↔ s ∈ l.
Proof.
  unfold inb. rewrite existsb_exists. split.
  - intros (x & Hx & ->%String.eqb_eq). by apply list_elem_of_In.
  - intros H. exists s. split; [by apply list_elem_of_In|apply String.eqb_refl].
Qed.

Lemma elem_of_class_add c cl tokens :
  c ∈ class_add cl tokens ↔ c ∈ cl ∨ c ∈ tokens.
Proof.
  unfold class_add. revert cl. induction tokens as [|t tokens IH]; intros cl.
  - simpl. rewrite elem_of_nil. tauto.
  - simpl. rewrite IH, elem_of_cons. destruct (inb t cl) eqn:E.
    + apply inb_elem_of in E. split; [tauto|]. intros [?|[->|?]]; auto.
    + rewrite elem_of_app, list_elem_of_singleton. tauto.
Qed.

Lemma elem_of_class_remove c cl tokens :
  c ∈ class_remove cl tokens ↔ c ∈ cl ∧ c ∉ tokens.
Proof.
  unfold class_remove. rewrite list_elem_of_In, filter_In, <- list_elem_of_In.
  rewrite negb_true_iff, <- Bool.not_true_iff_false, inb_elem_of. tauto.
Qed.

(** X8. [showMessage] un-hides the box, sets the text and gives the box
    the background of the message type and not the other one; but it
    never takes a border or text colour away, so after the loading message
    followed by an error message, as in a failed load, the box carries the
    red background together with both the yellow and the red border and
    text colours.  [hideMessage] only adds [hidden]: text and colours
    stay. *)
Theorem message_box_classes (b : box) (loading failure : string) :
  let shown := showMessage loading "info" b in
  let failed := showMessage failure "error" shown in
  let hidden := hideMessage failed in
  (("hidden" ∉ box_classes shown)
   ∧ ("bg-yellow-100" ∈ box_classes shown)
   ∧ ("bg-red-100" ∉ box_classes shown))
  ∧ (box_text failed = failure
     ∧ ("hidden" ∉ box_classes failed)
     ∧ ("bg-red-100" ∈ box_classes failed)
     ∧ ("bg-yellow-100" ∉ box_classes failed)
     ∧ ("border-yellow-500" ∈ box_classes failed)
     ∧ ("text-yellow-700" ∈ box_classes failed)
     ∧ ("border-red-500" ∈ box_classes failed)
     ∧ ("text-red-700" ∈ box_classes failed))
  ∧ (box_text hidden = failure
     ∧ ∀ c, c ∈ box_classes hidden ↔ c = "hidden" ∨ c ∈ box_classes failed)
  ∧ ∀ c, c ∈ box_classes b →
         c ∉ ["hidden"; "bg-yellow-100"; "bg-red-100"] →
         c ∈ box_classes failed.
Proof.
  intros shown failed hidden. subst shown failed hidden.
  unfold showMessage, hideMessage. cbn [box_classes box_text].
  change (String.eqb "info" "error") with false.
  change (String.eqb "error" "error") with true. cbv iota.
  split; [|split; [|split]].
  - repeat split;
      repeat first [ rewrite elem_of_class_add | rewrite elem_of_class_remove
                   | rewrite elem_of_cons | rewrite elem_of_nil ];
      intuition (try discriminate; auto 10).
  - split; [done|]. repeat split;
      repeat first [ rewrite elem_of_class_add | rewrite elem_of_class_remove
                   | rewrite elem_of_cons | rewrite elem_of_nil ];
      intuition (try discriminate; auto 10).
  - split; [done|]. intros c.
    rewrite (elem_of_class_add c _ ["hidden"]), list_elem_of_singleton. tauto.
  - intros c Hc Hn.
    repeat first [ rewrite elem_of_class_add | rewrite elem_of_class_remove
                 | rewrite elem_of_cons | rewrite elem_of_nil ].
    rewrite !elem_of_cons, elem_of_nil in Hn.
    intuition (try discriminate; auto 10).
Qed.

(** X9. After a click on a tag button exactly that button is styled as
    the active one, whatever the buttons looked like before: every tag
    button of the document keeps its [data-tag] and all its other classes,
    has the three active classes if and only if it is the clicked one, and
    has the three inactive classes if and only if it is not. *)
Theorem click_styles_one_button (buttons : list button) (target j : nat)
    (bj : button) :
  buttons !! j = Some bj →
  length (restyle buttons target) = length buttons
  ∧ ∃ bj', restyle buttons target !! j = Some bj'
      ∧ data_tag bj' = data_tag bj
      ∧ (∀ c, c ∈ active_classes → c ∈ btn_classes bj' ↔ j = target)
      ∧ (∀ c, c ∈ inactive_classes → c ∈ btn_classes bj' ↔ j ≠ target)
      ∧ (∀ c, c ∉ active_classes → c ∉ inactive_classes →
              c ∈ btn_classes bj' ↔ c ∈ btn_classes bj).
Proof.
  intros Hj. unfold restyle. split.
  { by rewrite length_alter, length_fmap. }
  assert (Hdisj : ∀ c, c ∈ active_classes → c ∉ inactive_classes).
  { intros c. unfold active_classes, inactive_classes.
    rewrite !elem_of_cons, !elem_of_nil.
    intuition (subst; discriminate). }
  destruct (decide (j = target)) as [->|Hne].
  - exists (style_target (unstyle bj)).
    rewrite list_lookup_alter_eq, list_lookup_fmap, Hj.
    split; [done|]. split; [done|]. cbn [style_target unstyle btn_classes].
    split; [|split].
    + intros c Hc. rewrite elem_of_class_remove, !elem_of_class_add,
        elem_of_class_remove. specialize (Hdisj c Hc). tauto.
    + intros c Hc. rewrite elem_of_class_remove. tauto.
    + intros c Ha Hi. rewrite elem_of_class_remove, !elem_of_class_add,
        elem_of_class_remove. tauto.
  - exists (unstyle bj).
    rewrite list_lookup_alter_ne, list_lookup_fmap, Hj by done.
    split; [done|]. split; [done|]. cbn [unstyle btn_classes].
    split; [|split].
    + intros c Hc. rewrite elem_of_class_add, elem_of_class_remove.
      specialize (Hdisj c Hc). tauto.
    + intros c Hc. rewrite elem_of_class_add. tauto.
    + intros c Ha Hi. rewrite elem_of_class_add, elem_of_class_remove. tauto.
Qed.

Lemma click_styles_one_button_witness :
  let all := {| data_tag := "all";
                btn_classes := ["tag-button"; "bg-blue-500"; "text-white";
                                "hover:bg-blue-600"] |} in
  let x := {| data_tag := "x";
              btn_classes := ["tag-button"; "px-4"; "bg-gray-200";
                              "text-gray-800"; "hover:bg-gray-300"] |} in
  btn_classes <$> restyle [all; x] 1
  = [["tag-button"; "bg-gray-200"; "text-gray-800"; "hover:bg-gray-300"];
     ["tag-button"; "px-4"; "bg-blue-500"; "text-white"; "hover:bg-blue-600"]]
  ∧ ∃ b', restyle [all; x] 1 !! 0%nat = Some b' ∧ data_tag b' = "all".
Proof.
  intros all x. split; [reflexivity|].
  destruct (click_styles_one_button [all; x] 1 0 all eq_refl)
    as (_ & b' & Hb & Ht & _).
  by exists b'.
Defined.

(** ** The game page *)

Lemma setIframeSrc_inv d key pg0 pg url :
  (key = "Stable" ∨ key = "Snapshot") → entry_url d key = Ok url →
  game_inv d pg0 pg → game_inv d pg0 (setIframeSrc url pg).
Proof.
  intros Hk Hu (HL & HF & HO). unfold setIframeSrc.
  destruct (truthy url) eqn:T; (split; [done|split; [|done]]); [|done].
  destruct url as [u|]; [|done]. right. by exists key, u.
Qed.

Lemma game_handle_inv d pg0 c pg :
  game_inv d pg0 pg → game_inv d pg0 (fst (game_handle c pg)).
Proof.
  intros Hinv. assert (Hinv' := Hinv). destruct Hinv' as (HL & HF & HO).
  unfold game_handle. destruct HL as [-> | ->]; [done|].
  destruct c.
  - destruct (entry_url d "Stable") as [url|] eqn:E; [|done].
    apply (setIframeSrc_inv d "Stable"); auto.
  - destruct (entry_url d "Snapshot") as [url|] eqn:E; [|done].
    apply (setIframeSrc_inv d "Snapshot"); auto.
  - destruct (entry_url d "Itch-Stable") as [url|] eqn:E; [|done].
    destruct (truthy url) eqn:T; cbn [fst]; unfold game_inv; rewrite E.
    + split; [by right|]. split; [done|]. cbn [opened]. intros u Hu.
      apply elem_of_app in Hu as [Hu|Hu]; [by apply HO|].
      destruct url as [v|]; [|by apply elem_of_nil in Hu].
      apply list_elem_of_singleton in Hu as ->. by right.
    + split; [by right|]. by split.
Qed.

Lemma game_run_inv d pg0 cs pg :
  game_inv d pg0 pg → game_inv d pg0 (game_run cs pg).
Proof.
  revert pg. induction cs as [|c cs IH]; intros pg H; [done|].
  apply IH. by apply game_handle_inv.
Qed.

Lemma game_run_dead cs pg : listeners pg = None → game_run cs pg = pg.
Proof.
  intros H. induction cs as [|c cs IH]; [done|].
  unfold game_run in *. simpl.
  assert (E : fst (game_handle c pg) = pg)
    by (unfold game_handle; by rewrite H).
  rewrite E. exact IH.
Qed.

Lemma game_load_inv r d pg0 :
  g_ok r = true → g_json r = Ok d →
  game_inv d pg0 (game_load (Ok r) pg0).
Proof.
  intros Hok HJ. unfold game_load. rewrite Hok, HJ. simpl negb. cbv iota.
  set (pg1 := {| frame_src := frame_src pg0; frame_body := frame_body pg0;
                 opened := opened pg0;
                 console := console pg0; listeners := Some d |}).
  assert (H1 : game_inv d pg0 pg1).
  { split; [by right|]. split; [by left|]. intros u Hu. by left. }
  destruct (entry_url d "Stable") as [url|e] eqn:E.
  - apply (setIframeSrc_inv d "Stable"); auto.
  - exact H1.
Qed.

(** X10. Whatever the data file holds and whatever is clicked, the frame
    is only ever given a truthy [url] of the ["Stable"] or the
    ["Snapshot"] entry: a missing, empty or null URL never blanks the
    frame, the Itch button never touches it, and the only URL ever opened
    in a new tab is the truthy [url] of the ["Itch-Stable"] entry. *)
Theorem frame_gets_only_stable_or_snapshot (fetched : result game_response)
    (cs : list game_click) (pg0 : game_page) :
  listeners pg0 = None →
  let pg := game_run cs (game_load fetched pg0) in
  (frame_src pg = frame_src pg0
   ∨ ∃ r d key url,
       fetched = Ok r ∧ g_json r = Ok d
       ∧ (key = "Stable" ∨ key = "Snapshot")
       ∧ entry_url d key = Ok (Some url)
       ∧ truthy (Some url) = true
       ∧ frame_src pg = Some url)
  ∧ ∀ u, u ∈ opened pg →
      u ∈ opened pg0
      ∨ ∃ r d, fetched = Ok r ∧ g_json r = Ok d
               ∧ entry_url d "Itch-Stable" = Ok (Some u)
               ∧ truthy (Some u) = true.
Proof.
  intros HL pg. subst pg.
  assert (Hdead : ∀ e, let pg := game_run cs (game_catch e pg0) in
            frame_src pg = frame_src pg0 ∧ opened pg = opened pg0).
  { intros e. simpl. by rewrite game_run_dead. }
  destruct fetched as [r|e].
  2: { destruct (Hdead e) as [HF HO]. unfold game_load.
       split; [by left|]. intros u. rewrite HO. by left. }
  destruct (g_ok r) eqn:Hok.
  2: { unfold game_load. rewrite Hok. simpl negb. cbv iota.
       match goal with |- context [game_catch ?e pg0] =>
         destruct (Hdead e) as [HF HO] end.
       split; [by left|]. intros u. rewrite HO. by left. }
  destruct (g_json r) as [d|e] eqn:HJ.
  2: { unfold game_load. rewrite Hok, HJ. simpl negb. cbv iota.
       destruct (Hdead e) as [HF HO].
       split; [by left|]. intros u. rewrite HO. by left. }
  destruct (game_run_inv d pg0 cs _ (game_load_inv r d pg0 Hok HJ))
    as (_ & HF & HO).
  split.
  - destruct HF as [?|(key & url & ? & ? & ? & ?)]; [by left|].
    right. by exists r, d, key, url.
  - intros u Hu. destruct (HO u Hu) as [?|[? ?]]; [by left|].
    right. by exists r, d.
Qed.

Lemma frame_gets_only_stable_or_snapshot_witness :
  let fetched := Ok {| g_ok := true; g_status := 200;
                       g_json := Ok versions_json |} in
  let pg := game_run [DevBtn; ItchBtn] (game_load fetched fresh_page) in
  listeners fresh_page = None
  ∧ frame_src pg = Some (JStr "play/1.0/index.html")
  ∧ opened pg = [JStr "https://example.itch.io/game"]
  ∧ console pg = [InvalidUrl]
  ∧ ∀ u, u ∈ opened pg →
      u ∈ opened fresh_page
      ∨ ∃ r d, fetched = Ok r ∧ g_json r = Ok d
               ∧ entry_url d "Itch-Stable" = Ok (Some u)
               ∧ truthy (Some u) = true.
Proof.
  intros fetched pg. split; [reflexivity|]. repeat (split; [reflexivity|]).
  exact (proj2 (frame_gets_only_stable_or_snapshot fetched [DevBtn; ItchBtn]
                  fresh_page eq_refl)).
Defined.

(** X11. When the data cannot be fetched or parsed (the fetch is
    rejected, the response is not OK, or its body is not JSON) the script
    registers no click listener: whatever is clicked afterwards, the page
    stays exactly as the [catch] block left it, with the source of the
    frame untouched, the error markup written into the body of the frame's
    document, nothing opened and the one console line of the [catch]
    block. *)
Theorem failed_fetch_leaves_buttons_dead (fetched : result game_response)
    (cs : list game_click) (pg0 : game_page) (e : exn) :
  listeners pg0 = None →
  fetched = Throw e
  ∨ (∃ r, fetched = Ok r ∧ g_ok r = false
          ∧ e = Error ("HTTP error! status: " +:+ pretty (g_status r)))
  ∨ (∃ r, fetched = Ok r ∧ g_ok r = true ∧ g_json r = Throw e) →
  let pg := game_run cs (game_load fetched pg0) in
  pg = game_catch e pg0
  ∧ frame_src pg = frame_src pg0
  ∧ frame_body pg = Some error_page
  ∧ opened pg = opened pg0
  ∧ console pg = console pg0 ++ [CouldNotFetch e]
  ∧ listeners pg = None.
Proof.
  intros HL H pg.
  assert (E : game_load fetched pg0 = game_catch e pg0).
  { unfold game_load.
    destruct H as [->|[(r & -> & Hok & ->)|(r & -> & Hok & HJ)]].
    - done.
    - by rewrite Hok.
    - by rewrite Hok, HJ. }
  subst pg. rewrite E, game_run_dead by done. by repeat split.
Qed.

Lemma failed_fetch_leaves_buttons_dead_witness :
  let fetched := Ok {| g_ok := false; g_status := 404;
                       g_json := Ok versions_json |} in
  let pg := game_run [StableBtn; DevBtn; ItchBtn]
              (game_load fetched fresh_page) in
  frame_src pg = None
  ∧ frame_body pg
    = Some "<h1>Error loading game data.</h1><p>Please check the console for more details.</p>"
  ∧ opened pg = []
  ∧ console pg = [CouldNotFetch (Error "HTTP error! status: 404")].
Proof.
  intros fetched pg.
  destruct (failed_fetch_leaves_buttons_dead fetched
              [StableBtn; DevBtn; ItchBtn] fresh_page
              (Error "HTTP error! status: 404") eq_refl)
    as (_ & HF & HB & HO & HC & _).
  { right. left. eexists. repeat split. }
  by repeat split.
Defined.



(** ** Rendering *)

(** X13. [renderPost] returns a card exactly for the posts it can write
    out: objects whose [tags] is an array of values that have strings,
    whose [title], [date] and [content] have strings where present, and
    whose image, when [img] and [img.src] are truthy, has [src] and [alt]
    with strings.  For null, a scalar, an object with missing or non-array
    [tags], or a post holding in one of these places an object with a
    property named [toString], it throws. *)
Theorem post_renders_iff_writable (P : Platform) (post : jsval) :
  (is_ok (renderPost P post) ↔
   ∃ fields items,
     post = JObj fields ∧ assoc "tags" fields = Some (JArr items)
     ∧ Forall stringable items
     ∧ opt_stringable (assoc "title" fields)
     ∧ opt_stringable (assoc "date" fields)
     ∧ opt_stringable (assoc "content" fields)
     ∧ img_writable (JObj fields))
  ∧ (is_ok (renderPost P post) → is_ok (tags_forEach post))
  ∧ ∀ v fs, ¬ stringable (JObj (("toString", v) :: fs)).
Proof.
  split; [|split].
  - rewrite renderPost_is_ok. unfold renderable. split.
    + intros (Hs & Ht & Htc & Hd & Hi).
      destruct (post_shaped_inv post Hs) as (fields & items & -> & E).
      exists fields, items. unfold tags_forEach, date_readable in *.
      simpl in Ht, Htc, Hd. rewrite E in Ht. simpl in Ht.
      by intuition.
    + intros (fields & items & -> & E & Ht & H1 & H2 & H3 & Hi).
      unfold post_shaped, tags_forEach, date_readable. simpl.
      rewrite E. simpl. by intuition.
  - intros H. by apply renderPost_is_ok, renderable_shaped in H.
  - intros v fs. unfold stringable. simpl. tauto.
Qed.

(** X14. [renderPosts] shows the "no posts" paragraph for the empty list
    and otherwise empties the container and appends one card per post in
    display order; when a post cannot be written out the exception leaves
    the container with the cards of the posts before it, and the posts
    after it are not shown. *)
Theorem renderPosts_shows_cards_in_order (P : Platform) :
  renderPosts P [] = (InnerHTML no_posts_html, None)
  ∧ (∀ posts, posts ≠ [] → Forall renderable posts →
       ∃ cards, renderPosts P posts = (Children cards, None)
                ∧ length cards = length posts
                ∧ Ok <$> cards = renderPost P <$> posts)
  ∧ (∀ good bad rest, Forall renderable good → ¬ renderable bad →
       ∃ cards e,
         renderPosts P (good ++ bad :: rest) = (Children cards, Some e)
         ∧ renderPost P bad = Throw e
         ∧ length cards = length good
         ∧ Ok <$> cards = renderPost P <$> good).
Proof.
  split; [done|]. split.
  - intros posts Hne Hs. unfold renderPosts.
    destruct posts as [|p posts]; [done|]. cbn [length Nat.eqb].
    destruct (appendCards_renderable P [] (p :: posts) Hs) as (cs & -> & E).
    exists cs. split; [done|]. split; [|done].
    by rewrite <- (length_fmap Ok cs), E, length_fmap.
  - intros good bad rest Hg Hb. unfold renderPosts.
    assert (Hl : (length (good ++ bad :: rest) =? 0)%nat = false).
    { apply Nat.eqb_neq. rewrite length_app. simpl. lia. }
    rewrite Hl.
    destruct (appendCards_stops P [] good bad rest Hg Hb)
      as (cs & e & -> & E & Hbad).
    exists cs, e. split; [done|]. split; [done|]. split; [|done].
    by rewrite <- (length_fmap Ok cs), E, length_fmap.
Qed.

Lemma renderPosts_shows_cards_in_order_witness :
  let odd := JObj [("title", JObj [("toString", JNum 1)]);
                   ("tags", JArr [])] in
  let posts := [mkPost "a" "2024-01-01" ["x"]; odd;
                mkPost "c" "2022-01-01" []] in
  ∃ cards e, renderPosts demo posts = (Children cards, Some e)
             ∧ length cards = 1%nat
             ∧ e = TypeError "Cannot convert object to primitive value".
Proof.
  intros odd posts.
  destruct (renderPosts_shows_cards_in_order demo) as (_ & _ & H).
  destruct (H [mkPost "a" "2024-01-01" ["x"]] odd
              [mkPost "c" "2022-01-01" []]) as (cards & e & E & Hb & Hl & _).
  { constructor; [|constructor]. apply (renderPost_is_ok demo). by vm_compute. }
  { intros Hr. apply (renderPost_is_ok demo) in Hr. by vm_compute in Hr. }
  exists cards, e. split; [exact E|]. split; [exact Hl|].
  vm_compute in Hb. by injection Hb.
Defined.

(** ** When a load succeeds *)

Lemma shaped_or_first_unshaped posts :
  Forall post_shaped posts
  ∨ ∃ good bad rest, posts = good ++ bad :: rest
      ∧ Forall post_shaped good ∧ ¬ post_shaped bad.
Proof.
  induction posts as [|x posts IH]; [by left|].
  destruct (tags_forEach x) as [items|e] eqn:E.
  - assert (Hx : post_shaped x) by (unfold post_shaped; by rewrite E).
    destruct IH as [H|(good & bad & rest & -> & Hg & Hb)].
    + left. by constructor.
    + right. exists (x :: good), bad, rest.
      split; [done|split; [by constructor|done]].
  - right. exists [], x, posts. split; [done|split; [constructor|]].
    unfold post_shaped. rewrite E. by intros [].
Qed.

(** X15. Once the text has parsed, a load ends with the message hidden
    whenever every parsed post can be written out and the tag set held
    only values that have strings.  It ends with the message hidden only
    if every parsed value is an object whose [tags] is an array and every
    tag of the set has a string; so a JSON post that lacks [tags], or a
    null in the JSON array, turns the whole load into a reported failure,
    while missing titles, contents, images and dates that do not parse
    never do. *)
Theorem load_hidden_when_posts_writable (P : Platform) (dataFile : string)
    (r : response) (σ : state) (posts : list jsval) :
  wf σ → ok r = true →
  parseByExtension P dataFile (text r) = Ok posts →
  let σ' := fetchData P dataFile (Ok r) σ in
  (Forall stringable (allTags σ) → Forall renderable posts →
   message σ' = Hidden)
  ∧ (message σ' = Hidden →
     Forall post_shaped posts ∧ Forall stringable (allTags σ'))
  ∧ (¬ Forall post_shaped posts → ∃ m, message σ' = ErrorMsg m).
Proof.
  intros W Hok HP σ'. subst σ'.
  split.
  { intros Ht Hr.
    by destruct (fetchData_renderable P dataFile r σ posts W Hok HP Ht Hr). }
  pose proof (fetchData_parsed P dataFile r σ posts W Hok HP) as H.
  destruct (shaped_or_first_unshaped posts)
    as [Hs|(good & bad & rest & -> & Hg & Hb)].
  - split; [|by intros Hn; destruct Hn].
    destruct (collectTags_shaped (allTags σ) posts Hs) as (tags & E & _).
    rewrite E in H. destruct H as (_ & _ & HT & _ & _ & H).
    intros HM. split; [done|]. rewrite HT. apply renderTags_is_ok.
    destruct (renderTags tags); [done|].
    destruct H as [H _]. rewrite HM in H. discriminate.
  - destruct (collectTags_stops (allTags σ) good bad rest Hg Hb)
      as (e & _ & E).
    rewrite E in H. destruct H as (_ & _ & _ & _ & _ & HM & _).
    rewrite HM. unfold load_error. split; [discriminate|]. by eauto.
Qed.

Lemma load_hidden_when_posts_writable_witness :
  let r := {| ok := true; http_status := 200;
              text := json_text "{'title':'Solo','date':'not-a-date','tags':[]}" |} in
  let σ' := fetchData demo "posts.json" (Ok r) init in
  message σ' = Hidden
  ∧ deref σ' (displayedPosts σ')
    = [JObj [("title", JStr "Solo"); ("date", JStr "not-a-date");
             ("tags", JArr [])]].
Proof.
  intros r σ'. split; [|reflexivity].
  apply (load_hidden_when_posts_writable demo "posts.json" r init
           [JObj [("title", JStr "Solo"); ("date", JStr "not-a-date");
                  ("tags", JArr [])]] wf_init eq_refl eq_refl).
  - constructor.
  - constructor; [|constructor]. apply (renderPost_is_ok demo). by vm_compute.
Defined.

(** X16. For a post the XML parser built, the card shows an image exactly
    when the Post element has an [img image] element whose [src] text is
    not empty: with no image element, or with an image without [src] text,
    the image markup is empty. *)
Theorem xml_image_shown_iff_src (anc : list string) (e : xnode) :
  imgHtml (parseXmlPost (anc, e)) = Ok ""
  ↔ match querySelector anc e (Some "img") "image" with
    | None => True
    | Some (ianc, ie) => child_text ianc ie "src" = ""
    end.
Proof.
  unfold parseXmlPost.
  destruct (querySelector anc e (Some "img") "image") as [[ianc ie]|].
  - unfold imgHtml. cbn [get_prop assoc String.eqb Ascii.eqb Bool.eqb bind
                         truthy].
    destruct (child_text ianc ie "src") as [|c s] eqn:E.
    + done.
    + cbn. split; [|done]. intros [=].
  - done.
Qed.

(** X17. The first view: a load that starts from the default view state
    (newest first, all tags) with a tag set of values that have strings,
    and parses posts that can be written out and have valid dates, hides
    the message and shows every post of the corpus, ordered from the
    latest date to the earliest, posts of one date in corpus order. *)
Theorem first_view_is_newest_first (P : Platform) (dataFile : string)
    (r : response) (σ : state) (posts : list jsval) :
  wf σ → currentSort σ = "date-desc" → currentTag σ = "all" →
  Forall stringable (allTags σ) →
  ok r = true → parseByExtension P dataFile (text r) = Ok posts →
  Forall renderable posts → Forall (valid_date P) posts →
  let σ' := fetchData P dataFile (Ok r) σ in
  let shown := deref σ' (displayedPosts σ') in
  message σ' = Hidden
  ∧ shown ≡ₚ posts
  ∧ StronglySorted (fun a b => time_of P b ≤ time_of P a) shown
  ∧ ∀ d, filter (fun p => date_of P p = Some d) shown
         = filter (fun p => date_of P p = Some d) posts.
Proof.
  intros W HS HT Ht Hok HP Hr Hv σ' shown. subst shown σ'.
  assert (Hs : Forall post_shaped posts).
  { eapply Forall_impl; [exact Hr|]. apply renderable_shaped. }
  destruct (fetchData_renderable P dataFile r σ posts W Hok HP Ht Hr)
    as (HM & _ & _ & HD & _).
  rewrite HS, HT in HD.
  destruct (sortStep_order P "date-desc" posts Hs Hv) as (_ & dl & ED & Od);
    [by right|].
  unfold displayList in HD. simpl in HD. rewrite ED in HD.
  injection HD as ->. split; [done|].
  assert (Hv' := Hv). rewrite Forall_forall in Hv'.
  destruct (sort_order_by_time P (f_desc P) (fun p => - time_of P p) posts dl)
    as [H1 H2]; [done| | |exact Od|].
  - intros a b Ha Hb.
    destruct (cf_desc_valid P a b) as [_ ->]; [by apply Hv'..|]. lia.
  - intros a b _ _. lia.
  - split; [by destruct Od|]. split; [|done].
    eapply StronglySorted_impl_in; [|exact H1]. simpl. intros. lia.
Qed.

Lemma first_view_is_newest_first_witness :
  let r := {| ok := true; http_status := 200; text := three_posts_json |} in
  let σ' := fetchData demo "posts.json" (Ok r) init in
  message σ' = Hidden
  ∧ titles_of (Ok (deref σ' (displayedPosts σ'))) = Ok ["a"; "b"; "c"]
  ∧ deref σ' (displayedPosts σ') ≡ₚ deref σ' (allPosts σ').
Proof.
  intros r σ'.
  assert (E : deref σ' (allPosts σ')
              = [JObj [("title", JStr "c"); ("date", JStr "2022-03-01");
                       ("tags", JArr [JStr "x"])];
                 JObj [("title", JStr "a"); ("date", JStr "2024-01-01");
                       ("tags", JArr [])];
                 JObj [("title", JStr "b"); ("date", JStr "2023-06-01");
                       ("tags", JArr [JStr "x"; JStr "y"])]])
    by reflexivity.
  destruct (first_view_is_newest_first demo "posts.json" r init _ wf_init
              eq_refl eq_refl (Forall_nil_2 _) eq_refl eq_refl)
    as (HM & Hp & _).
  { repeat constructor; apply (renderPost_is_ok demo); by vm_compute. }
  { repeat constructor; eexists; vm_compute; reflexivity. }
  split; [exact HM|]. split; [reflexivity|]. rewrite E. exact Hp.
Defined.

(** X18. On a corpus of posts that can be written out, [updatePosts] as
    a whole does not throw and leaves the page in step with the state: the
    container shows the "no posts" paragraph exactly when no post passes
    the filter, and otherwise one card per post of the display list, in
    its order. *)
Theorem page_shows_display_list (P : Platform) (σ : state) (c : container) :
  wf σ → Forall renderable (deref σ (allPosts σ)) →
  let kept := spec_filter (currentTag σ) (deref σ (allPosts σ)) in
  let '(σ', c', e) := updatePosts_rendered P σ c in
  e = None
  ∧ Ok (deref σ' (displayedPosts σ'))
    = displayList P (deref σ (allPosts σ)) (currentSort σ) (currentTag σ)
  ∧ (kept = [] → c' = InnerHTML no_posts_html)
  ∧ (kept ≠ [] →
     ∃ cards, c' = Children cards
              ∧ length cards = length kept
              ∧ Ok <$> cards
                = renderPost P <$> deref σ' (displayedPosts σ')).
Proof.
  intros W Hr kept. unfold updatePosts_rendered.
  assert (Hs : Forall post_shaped (deref σ (allPosts σ))).
  { eapply Forall_impl; [exact Hr|]. apply renderable_shaped. }
  assert (Hd : Forall date_readable (deref σ (allPosts σ))).
  { eapply Forall_impl; [exact Hr|]. apply renderable_readable. }
  pose proof (updatePosts_spec P σ W) as H.
  destruct (updatePosts P σ) as [σ1 e1].
  destruct H as (_ & _ & _ & _ & _ & _ & _ & D).
  destruct (displayList_shaped P _ (currentSort σ) (currentTag σ) Hs Hd)
    as (dl & ED & Hp).
  rewrite ED in D |- *. destruct D as [-> D]. rewrite D.
  fold kept in Hp.
  assert (Hsd : Forall renderable dl).
  { rewrite Hp. by apply spec_filter_Forall. }
  unfold renderPosts. destruct dl as [|p dl].
  - cbn. apply Permutation_nil_l in Hp. split; [done|].
    split; [by rewrite D|]. split; [done|]. intros Hn. by destruct Hn.
  - cbn [length Nat.eqb].
    destruct (appendCards_renderable P [] (p :: dl) Hsd) as (cs & -> & E).
    split; [done|]. split; [by rewrite D|]. split.
    + intros Hk. rewrite Hk in Hp. by apply Permutation_nil_r in Hp.
    + intros _. exists cs. split; [done|]. rewrite D. split; [|done].
      by rewrite <- (length_fmap Ok cs), E, length_fmap, Hp.
Qed.

Lemma page_shows_display_list_witness :
  let σ := set_currentTag "nothing" scenarioA in
  (wf σ ∧ Forall renderable (deref σ (allPosts σ)))
  ∧ snd (fst (updatePosts_rendered demo σ (Children [])))
    = InnerHTML no_posts_html.
Proof.
  intros σ.
  assert (W : wf σ) by (unfold wf; vm_compute; lia).
  assert (Hs : Forall renderable (deref σ (allPosts σ))).
  { assert (E : deref σ (allPosts σ) = parseXmlData demo scenarioA_xml)
      by (vm_compute; reflexivity).
    rewrite E. apply parseXmlDoc_renderable. }
  split; [by split|].
  pose proof (page_shows_display_list demo σ (Children []) W Hs) as H.
  destruct (updatePosts_rendered demo σ (Children [])) as [[σ' c'] e].
  destruct H as (_ & _ & H & _). simpl. by apply H.
Defined.
